(** * Sets of the go-typ library: [typ.Set] and [maps.Set]

    A shallow embedding of [src/set.go] (package [typ]) and of
    [src/maps/set.go] (package [maps]), and the properties of the two set
    types: uniqueness, the results of [Add]/[Remove], the set algebra
    ([Intersect], [Union], [SetDiff], [SymDiff], [CartesianProduct]),
    [Clone], [Slice] and [Range], and further [AddSet]/[RemoveSet], the
    constructors from slices and maps, [String] and the nil set.

    A Go value of type [Set[T]] is a reference to a map [map[T]struct{}]:
    the methods mutate the map their receiver points to.  The embedding keeps
    that: a set is a location of a store of maps and every method is a
    computation over the store. *)

From Stdlib Require Import ZArith.
From stdpp Require Import base option list gmap fin_maps fin_sets strings.

Local Open Scope Z_scope.

(** ** Computations over a store that may panic *)

Definition M (S A : Type) : Type := S → option (A * S).

Global Instance M_ret {S} : MRet (M S) := λ A a σ, Some (a, σ).

Global Instance M_bind {S} : MBind (M S) := λ A B k c σ,
  match c σ with
  | Some (a, σ') => k a σ'
  | None => None
  end.

(** [for _, v := range vs { body }] over a slice, or over the keys of a map
    once their order is fixed.  [a] holds the local variables that the body
    assigns to ([()] when there is none). *)
Fixpoint for_range {S E A} (vs : list E) (body : E → A → M S A) (a : A) : M S A :=
  match vs with
  | [] => mret a
  | v :: vs' => a' ← body v a; for_range vs' body a'
  end.

(** The same loop with a body that may [break]: the body returns whether the
    loop goes on. *)
Fixpoint for_range_break {S E A} (vs : list E) (body : E → A → M S (bool * A)) (a : A)
    : M S A :=
  match vs with
  | [] => mret a
  | v :: vs' =>
      '(continue, a') ← body v a;
      if continue : bool then for_range_break vs' body a' else mret a'
  end.

(** Go's [int] on the 64-bit platforms: [n++] wraps around. *)
Definition int_wrap (n : Z) : Z := (n + 2 ^ 63) mod 2 ^ 64 - 2 ^ 63.
Definition int_incr (n : Z) : Z := int_wrap (n + 1).

(** ** The store of maps [map[T]struct{}] *)

Definition loc := positive.

(** A value of type [Set[T]]: a reference to a map, or [nil]. *)
Definition SetRef := option loc.
Definition nil : SetRef := None.

(** The order in which [for v := range m] yields the keys of a map is not
    specified and changes from one loop to the next.  A [RangeOrder] fixes
    one order for every loop (the [n]-th loop executed over the store) and
    every map; all that is known of it is that each key comes once. *)
Class RangeOrder (T : Type) `{Countable T} := {
  range_order : nat → gmap T () → list T;
  range_order_perm : ∀ n m, range_order n m ≡ₚ (map_to_list m).*1
}.

(** One such order, used to run the code on examples. *)
Definition keys_order {T} `{Countable T} : RangeOrder T :=
  {| range_order := λ _ m, (map_to_list m).*1;
     range_order_perm := λ _ _, reflexivity _ |}.

(** Another one, which reverses every second loop. *)
Definition alternating {T} (n : nat) (l : list T) : list T :=
  if Nat.even n then l else reverse l.

Definition alternating_order {T} `{Countable T} : RangeOrder T :=
  {| range_order := λ n m, alternating n (map_to_list m).*1;
     range_order_perm := λ n m,
       match Nat.even n as b
         return (if b then (map_to_list m).*1 else reverse (map_to_list m).*1)
                ≡ₚ (map_to_list m).*1
       with
       | true => reflexivity _
       | false => reverse_Permutation _
       end |}.

Section store.
Context `{Countable T}.

(** [heap] holds the maps that were made; [tick] counts the loops over
    maps executed so far. *)
Record mem := Mem { heap : gmap loc (gmap T ()); tick : nat }.

(** The map a set value points to; the nil map reads as an empty map. *)
Definition get (σ : mem) (s : SetRef) : gmap T () :=
  default ∅ (l ← s; heap σ !! l).

Definition put (σ : mem) (l : loc) (m : gmap T ()) : mem :=
  Mem (<[l := m]> (heap σ)) (tick σ).

Definition tock (σ : mem) : mem := Mem (heap σ) (S (tick σ)).

(** The location of the next map that is made. *)
Definition next (σ : mem) : loc := fresh (dom (heap σ)).

(** [make(Set[T])] *)
Definition make : M mem SetRef := λ σ, Some (Some (next σ), put σ (next σ) ∅).

(** [len(s)] *)
Definition len (s : SetRef) : M mem Z := λ σ, Some (Z.of_nat (size (get σ s)), σ).

(** [_, has := s[value]] *)
Definition map_has (s : SetRef) (value : T) : M mem bool := λ σ,
  Some (bool_decide (is_Some (get σ s !! value)), σ).

(** [s[value] = struct{}{}]; panics on the nil map. *)
Definition map_assign (s : SetRef) (value : T) : M mem () := λ σ,
  l ← s;
  m ← heap σ !! l;
  Some ((), put σ l (<[value := ()]> m)).

(** [delete(s, value)]; a no-op on the nil map. *)
Definition map_delete (s : SetRef) (value : T) : M mem () := λ σ,
  match s with
  | Some l => Some ((), Mem (alter (delete value) l (heap σ)) (tick σ))
  | None => Some ((), σ)
  end.

(** The keys that [for v := range s] goes through, in the order of this
    loop.  None of the loops of the two packages assigns to a key of the
    map it ranges over that the loop has not reached yet, so the keys are
    those at the start of the loop. *)
Definition range_keys `{!RangeOrder T} (s : SetRef) : M mem (list T) := λ σ,
  Some (range_order (tick σ) (get σ s), tock σ).

(** The keys of [vs] stored one after the other, as a loop of [Add]
    leaves them. *)
Definition add_keys (vs : list T) (m : gmap T ()) : gmap T () :=
  foldl (λ m v, <[v := ()]> m) m vs.

(** A set value of a running program is nil or points to a map of the
    heap. *)
Definition valid (σ : mem) (s : SetRef) : Prop :=
  match s with
  | Some l => is_Some (heap σ !! l)
  | None => True
  end.
End store.

Global Arguments mem T {_ _}.
Global Arguments Mem {T _ _} heap tick.

(** The same for a loop [for k, v := range m] over a map [map[K]V] that is
    not a set of the store: the order of the [n]-th loop over its entries. *)
Class EntryOrder (K V : Type) `{Countable K} := {
  entry_order : nat → gmap K V → list (K * V);
  entry_order_perm : ∀ n m, entry_order n m ≡ₚ map_to_list m
}.

Definition entries_order {K V} `{Countable K} : EntryOrder K V :=
  {| entry_order := λ _ m, map_to_list m;
     entry_order_perm := λ _ _, reflexivity _ |}.

(** The entries that [for k, v := range m] goes through; the map [m] is an
    argument that the loop only reads. *)
Definition range_entries `{Countable T} `{Countable K} {V} `{!EntryOrder K V}
    (m : gmap K V) : M (mem T) (list (K * V)) := λ σ,
  Some (entry_order (tick σ) m, tock σ).

(** ** Package [maps]: [src/maps/set.go]

    The methods take values of the interface [sets.Set[T]], which package
    [sets] declares; [maps.Set] is its implementation in these sources, and
    an interface value is a reference to a [maps.Set] here. *)

Module maps.
Section methods.
Context `{Countable T} `{!RangeOrder T}.

Definition Len (s : SetRef) : M (mem T) Z := len s.

Definition Has (s : SetRef) (value : T) : M (mem T) bool :=
  has ← map_has s value;
  mret has.

Definition Add (s : SetRef) (value : T) : M (mem T) bool :=
  has ← Has s value;
  if has : bool then mret false
  else map_assign s value;; mret true.

(** [f] is a closure: besides the store it may assign to the local
    variables it captured, which are threaded through as [a].  The loop goes
    through the keys the set has when it starts: a visitor that adds to the
    set it visits, or removes from it a key not yet visited, is not
    covered. *)
Definition Range {A} (s : SetRef) (f : T → A → M (mem T) (bool * A)) (a : A)
    : M (mem T) A :=
  vs ← range_keys s;
  for_range_break vs f a.

Definition AddSet (s set : SetRef) : M (mem T) Z :=
  Range set (λ value added,
    ok ← Add s value;
    mret (true, if ok : bool then int_incr added else added)) 0.

Definition Remove (s : SetRef) (value : T) : M (mem T) bool :=
  has ← Has s value;
  if negb has then mret false
  else map_delete s value;; mret true.

Definition RemoveSet (s set : SetRef) : M (mem T) Z :=
  Range set (λ value removed,
    ok ← Remove s value;
    mret (true, if ok : bool then int_incr removed else removed)) 0.

Definition Clone (s : SetRef) : M (mem T) SetRef :=
  clone ← make;
  vs ← range_keys s;
  for_range vs (λ v _, Add clone v;; mret ()) ();;
  mret clone.

Definition Slice (s : SetRef) : M (mem T) (list T) :=
  vs ← range_keys s;
  for_range vs (λ v result, mret (result ++ [v])) [].

Definition Intersect (s other : SetRef) : M (mem T) SetRef :=
  result ← make;
  vs ← range_keys s;
  for_range vs (λ v _,
    has ← Has other v;
    if has : bool then Add result v;; mret () else mret ()) ();;
  mret result.

Definition Union (s other : SetRef) : M (mem T) SetRef :=
  result ← Clone s;
  AddSet result other;;
  mret result.

Definition SetDiff (s other : SetRef) : M (mem T) SetRef :=
  result ← make;
  vs ← range_keys s;
  for_range vs (λ v _,
    has ← Has other v;
    if negb has then Add result v;; mret () else mret ()) ();;
  mret result.

Definition SymDiff (s other : SetRef) : M (mem T) SetRef :=
  result ← SetDiff s other;
  Range other (λ value _,
    has ← Has s value;
    (if negb has then Add result value;; mret () else mret ());;
    mret (true, ())) ();;
  mret result.

Definition NewSetFromSlice (slice : list T) : M (mem T) SetRef :=
  set ← make;
  for_range slice (λ v _, Add set v;; mret ()) ();;
  mret set.

(** [String]: [sb] is the [strings.Builder]; [fprint v] is what
    [fmt.Fprint(&sb, v)] writes for the value [v]. *)
Definition String (fprint : T → string) (s : SetRef) : M (mem T) string :=
  vs ← range_keys s;
  r ← for_range vs (λ v st,
      let st' := if st.2 : bool then (st.1 +:+ " ", st.2) else (st.1, true) in
      mret (st'.1 +:+ fprint v, st'.2)) ("{", false);
  mret (r.1 +:+ "}").
End methods.

Section constructors.
Context `{Countable K} `{!RangeOrder K}.

Definition NewSetFromKeys {V} `{!EntryOrder K V} (m : gmap K V) : M (mem K) SetRef :=
  set ← make;
  kvs ← range_entries m;
  for_range kvs (λ kv _, Add set kv.1;; mret ()) ();;
  mret set.

Definition NewSetFromValues `{Countable V} `{!RangeOrder V} `{!EntryOrder K V}
    (m : gmap K V) : M (mem V) SetRef :=
  set ← make;
  kvs ← range_entries m;
  for_range kvs (λ kv _, Add set kv.2;; mret ()) ();;
  mret set.
End constructors.
End maps.

(** ** Package [typ]: [src/set.go] *)

Module typ.
Section methods.
Context `{Countable T} `{!RangeOrder T}.

Definition Has (s : SetRef) (value : T) : M (mem T) bool :=
  has ← map_has s value;
  mret has.

(** The method [Set] of the type [Set]. *)
Definition Set_ (s : SetRef) (value : T) : M (mem T) bool :=
  has ← Has s value;
  if has : bool then mret false
  else map_assign s value;; mret true.

Definition Unset (s : SetRef) (value : T) : M (mem T) bool :=
  has ← Has s value;
  if negb has then mret false
  else map_delete s value;; mret true.

Definition Clone (s : SetRef) : M (mem T) SetRef :=
  clone ← make;
  vs ← range_keys s;
  for_range vs (λ v _, Set_ clone v;; mret ()) ();;
  mret clone.

Definition Slice (s : SetRef) : M (mem T) (list T) :=
  vs ← range_keys s;
  for_range vs (λ v result, mret (result ++ [v])) [].

Definition Intersect (s other : SetRef) : M (mem T) SetRef :=
  result ← make;
  vs ← range_keys s;
  for_range vs (λ v _,
    has ← Has other v;
    if has : bool then Set_ result v;; mret () else mret ()) ();;
  mret result.

Definition Union (s other : SetRef) : M (mem T) SetRef :=
  result ← Clone s;
  vs ← range_keys other;
  for_range vs (λ v _, Set_ result v;; mret ()) ();;
  mret result.

Definition SetDiff (s other : SetRef) : M (mem T) SetRef :=
  result ← make;
  vs ← range_keys s;
  for_range vs (λ v _,
    has ← Has other v;
    if negb has then Set_ result v;; mret () else mret ()) ();;
  mret result.

Definition SymDiff (s other : SetRef) : M (mem T) SetRef :=
  result ← make;
  vs ← range_keys s;
  for_range vs (λ v _,
    has ← Has other v;
    if negb has then Set_ result v;; mret () else mret ()) ();;
  ws ← range_keys other;
  for_range ws (λ v _,
    has ← Has s v;
    if negb has then Set_ result v;; mret () else mret ()) ();;
  mret result.

Definition String (fprint : T → string) (s : SetRef) : M (mem T) string :=
  vs ← range_keys s;
  r ← for_range vs (λ v st,
      let st' := if st.2 : bool then (st.1 +:+ " ", st.2) else (st.1, true) in
      mret (st'.1 +:+ fprint v, st'.2)) ("{", false);
  mret (r.1 +:+ "}").
End methods.

(** [SetProduct] is the element type of a Cartesian product. *)
Record SetProduct (TA TB : Type) := mkSetProduct { A : TA; B : TB }.
Global Arguments mkSetProduct {TA TB} A B.
Global Arguments A {TA TB} _.
Global Arguments B {TA TB} _.

Global Instance SetProduct_eq_dec `{EqDecision TA, EqDecision TB} :
  EqDecision (SetProduct TA TB).
Proof. solve_decision. Defined.

Global Instance SetProduct_countable `{Countable TA, Countable TB} :
  Countable (SetProduct TA TB).
Proof.
  apply (inj_countable' (λ p, (A p, B p)) (λ ab, mkSetProduct ab.1 ab.2)).
  by intros [].
Defined.

Section product.
Context `{Countable TA} `{Countable TB}.
Context `{!RangeOrder TA} `{!RangeOrder TB}.

(** [CartesianProduct] works on sets of three element types: the store has
    one heap for each. *)
Record mem3 := Mem3 {
  memA : mem TA;
  memB : mem TB;
  memP : mem (SetProduct TA TB)
}.

Definition onA {X} (c : M (mem TA) X) : M mem3 X := λ σ,
  match c (memA σ) with
  | Some (x, a') => Some (x, Mem3 a' (memB σ) (memP σ))
  | None => None
  end.

Definition onB {X} (c : M (mem TB) X) : M mem3 X := λ σ,
  match c (memB σ) with
  | Some (x, b') => Some (x, Mem3 (memA σ) b' (memP σ))
  | None => None
  end.

Definition onP {X} (c : M (mem (SetProduct TA TB)) X) : M mem3 X := λ σ,
  match c (memP σ) with
  | Some (x, p') => Some (x, Mem3 (memA σ) (memB σ) p')
  | None => None
  end.

Definition CartesianProduct (a b : SetRef) : M mem3 SetRef :=
  result ← onP make;
  vas ← onA (range_keys a);
  for_range vas (λ valueA _,
    vbs ← onB (range_keys b);
    for_range vbs (λ valueB _,
      onP (Set_ result (mkSetProduct valueA valueB));; mret ()) ()) ();;
  mret result.
End product.

Global Arguments mem3 TA {_ _} TB {_ _}.
End typ.

(** The pairs that the loops of [CartesianProduct] store, in their order:
    the inner loop is the [n]-th loop over the store of [b] at its first
    run, the [n+1]-st at its second run and so on. *)
Fixpoint pairs_from `{Countable TA} `{Countable TB} `{!RangeOrder TB}
    (n : nat) (vas : list TA) (mb : gmap TB ()) : list (typ.SetProduct TA TB) :=
  match vas with
  | [] => []
  | va :: vas' =>
      (typ.mkSetProduct va <$> range_order n mb) ++ pairs_from (S n) vas' mb
  end.

(** ** Histories of [Add] and [Remove] *)

Inductive op (T : Type) : Type :=
  | OpAdd (v : T)
  | OpRemove (v : T).
Global Arguments OpAdd {T} v.
Global Arguments OpRemove {T} v.

Section histories.
Context `{Countable T}.

Global Instance op_eq_dec : EqDecision (op T).
Proof. solve_decision. Defined.

(** One call of the history on the set [s], and the whole history. *)
Definition run_op (s : SetRef) (o : op T) : M (mem T) bool :=
  match o with
  | OpAdd v => maps.Add s v
  | OpRemove v => maps.Remove s v
  end.

Definition run_ops (s : SetRef) (ops : list (op T)) : M (mem T) () :=
  for_range ops (λ o _, run_op s o;; mret ()) ().

(** What a call does to the map of the set it is made on. *)
Definition op_map (m : gmap T ()) (o : op T) : gmap T () :=
  match o with
  | OpAdd v => <[v := ()]> m
  | OpRemove v => delete v m
  end.





End histories.

(** ** Visitors of [Range] *)

Section visitors.
Context `{Countable T} `{!RangeOrder T}.

(** The visitor [f], which also notes the values it is called on. *)
Definition logging {A} (f : T → A → M (mem T) (bool * A))
    : T → A * list T → M (mem T) (bool * (A * list T)) :=
  λ v al,
    '(continue, a') ← f v al.1;
    mret (continue, (a', al.2 ++ [v])).






End visitors.

(** ** Comparing sets of two stores *)

Section comparing.
Context `{Countable T}.

(** The set [s1] of the store [σ1] and the set [s2] of the store [σ2]
    have the same elements: [Has] answers the same for every value and
    [Len] is the same. *)
Definition same_members (σ1 : mem T) (s1 : SetRef) (σ2 : mem T) (s2 : SetRef) : Prop :=
  (∀ v, fst <$> maps.Has s1 v σ1 = fst <$> maps.Has s2 v σ2)
  ∧ fst <$> maps.Len s1 σ1 = fst <$> maps.Len s2 σ2.

(** Two runs that both return a set, with the same elements. *)
Definition same_set (x1 x2 : option (SetRef * mem T)) : Prop :=
  ∃ r1 σ1 r2 σ2,
    x1 = Some (r1, σ1) ∧ x2 = Some (r2, σ2) ∧ same_members σ1 r1 σ2 r2.
End comparing.

Section new_sets.
Context `{Countable T}.

(** A run from the store [σ] that returns a set made during the run: its
    location was not in the heap of [σ], and every set of [σ] is still there
    and holds the map it held. *)
Definition returns_new_set (σ : mem T) (x : option (SetRef * mem T)) : Prop :=
  ∃ l σ',
    x = Some (Some l, σ')
    ∧ heap σ !! l = None
    ∧ ∀ s, valid σ s → s ≠ Some l ∧ valid σ' s ∧ get σ' s = get σ s.

(** Two runs, on the set [s1] and on the set [s2], that return the same
    boolean and leave the same elements in the two sets. *)
Definition same_effect (x1 : option (bool * mem T)) (s1 : SetRef)
    (x2 : option (bool * mem T)) (s2 : SetRef) : Prop :=
  ∃ r σ1 σ2,
    x1 = Some (r, σ1) ∧ x2 = Some (r, σ2) ∧ same_members σ1 s1 σ2 s2.
End new_sets.

(** ** Stores to run the code on *)

(** The empty store. *)
Definition store_0 : mem Z := Mem ∅ 0.


(** A store with the sets [{1,2,3}] and [{3,4,5}]. *)
Definition store_ab : mem Z :=
  Mem {[1%positive := {[1 := (); 2 := (); 3 := ()]};
        2%positive := {[3 := (); 4 := (); 5 := ()]}]} 0.

(** The scenario of the documentation of the methods: the two sets are made
    from slices, and the results are read with [Slice]. *)
Definition scenario `{!RangeOrder Z}
    : M (mem Z) (list Z * list Z * list Z * list Z * list Z) :=
  a ← maps.NewSetFromSlice [1; 2; 3];
  b ← maps.NewSetFromSlice [3; 4; 5];
  i ← maps.Intersect a b;
  u ← maps.Union a b;
  d ← maps.SetDiff a b;
  e ← maps.SetDiff b a;
  y ← maps.SymDiff a b;
  si ← maps.Slice i;
  su ← maps.Slice u;
  sd ← maps.Slice d;
  se ← maps.Slice e;
  sy ← maps.Slice y;
  mret (si, su, sd, se, sy).

(** A visitor that stops at once, and one that never stops. *)
Definition stop_at_once : Z → () → M (mem Z) (bool * ()) :=
  λ _ a, mret (false, a).

Definition never_stop : Z → () → M (mem Z) (bool * ()) :=
  λ _ a, mret (true, a).

(** A store for [CartesianProduct] with the sets [{1,2,3}] and [{3,4,5}]
    on both sides. *)
Definition store_product : typ.mem3 Z Z := typ.Mem3 store_ab store_ab (Mem ∅ 0).

(** A store with one set of strings, [{"go", "typ", "set"}]. *)
Definition store_words : mem string :=
  Mem {[1%positive := {["go" := (); "typ" := (); "set" := ()]}]} 0.

Section computing.
Context `{Countable T}.

(** The method [op] computes the operation [F] of sets: called on sets of
    the store it returns a set of the new store whose elements are [F] of
    those of the operands, and the sets of the old store are sets of the new
    one with the elements they had. *)
Definition computes (op : SetRef → SetRef → M (mem T) SetRef)
    (F : gset T → gset T → gset T) : Prop :=
  ∀ (σ : mem T) (a b : SetRef),
    valid σ a → valid σ b →
    ∃ r σ1,
      op a b σ = Some (r, σ1)
      ∧ valid σ1 r
      ∧ dom (get σ1 r) = F (dom (get σ a)) (dom (get σ b))
      ∧ ∀ s, valid σ s → valid σ1 s ∧ get σ1 s = get σ s.
End computing.

(** * Properties *)

(** ** The store *)
Section store_facts.
Context `{Countable T}.
Implicit Types (σ : mem T) (s : SetRef) (l : loc) (m : gmap T ()) (v : T).

Lemma unit_map_eq m1 m2 : dom m1 = dom m2 → m1 = m2.
Proof.
  intros Hd. apply map_eq. intros k.
  assert (Hk : k ∈ dom m1 ↔ k ∈ dom m2) by (by rewrite Hd).
  rewrite !elem_of_dom in Hk.
  destruct (m1 !! k) as [[]|] eqn:E1, (m2 !! k) as [[]|] eqn:E2; try done.
  - destruct Hk as [Hk _]. destruct Hk as [? ?]; [by eexists | done].
  - destruct Hk as [_ Hk]. destruct Hk as [? ?]; [by eexists | done].
Qed.

Lemma bind_run {S A B} (c : M S A) (k : A → M S B) (σ σ' : S) (a : A) :
  c σ = Some (a, σ') → (c ≫= k) σ = k a σ'.
Proof. intros Hc. unfold mbind, M_bind. by rewrite Hc. Qed.

Lemma make_run σ : make σ = Some (Some (next σ), put σ (next σ) ∅).
Proof. done. Qed.

Lemma range_keys_run `{!RangeOrder T} s σ :
  range_keys s σ = Some (range_order (tick σ) (get σ s), tock σ).
Proof. done. Qed.

Lemma next_fresh σ : heap σ !! next σ = None.
Proof. apply not_elem_of_dom, is_fresh. Qed.

Lemma get_put_eq σ l m : get (put σ l m) (Some l) = m.
Proof. unfold get, put. simpl. by rewrite lookup_insert_eq. Qed.

Lemma get_put_ne σ l m s : s ≠ Some l → get (put σ l m) s = get σ s.
Proof.
  intros Hne. unfold get, put. destruct s as [l'|]; simpl; [|done].
  rewrite lookup_insert_ne; [done | congruence].
Qed.

Lemma valid_ne_next σ s : valid σ s → s ≠ Some (next σ).
Proof.
  intros Hv ->. simpl in Hv. rewrite next_fresh in Hv. by destruct Hv.
Qed.

Lemma put_put σ l m m' : put (put σ l m) l m' = put σ l m'.
Proof. unfold put. simpl. by rewrite insert_insert_eq. Qed.

Lemma put_id σ l m : heap σ !! l = Some m → put σ l m = σ.
Proof. intros Hl. destruct σ as [h t]. unfold put. simpl in *. by rewrite insert_id. Qed.
Lemma for_range_break_true {S E A} (body : E → A → M S (bool * A))
    (g : E → A → M S A) :
  (∀ (v : E) (a : A) (σ : S), body v a σ = (x ← g v a; mret (true, x)) σ) →
  ∀ (vs : list E) (a : A) (σ : S), for_range_break vs body a σ = for_range vs g a σ.
Proof.
  intros Hbody. induction vs as [|v vs IH]; intros a σ; simpl; [done|].
  unfold mbind, M_bind at 1. rewrite Hbody. unfold mbind, M_bind, mret, M_ret.
  destruct (g v a σ) as [[x σ']|]; [|done]. apply IH.
Qed.
End store_facts.

(** One step of a computation: rewrite with what its first part returns. *)
Tactic Notation "mrun" uconstr(lem) := (erewrite bind_run by (apply lem)).


(** ** The methods of [maps.Set], run on a store *)

Section maps_facts.
Context `{Countable T} `{!RangeOrder T}.
Implicit Types (σ : mem T) (s : SetRef) (l : loc) (m : gmap T ()) (v : T).

Lemma Has_run s v σ :
  maps.Has s v σ = Some (bool_decide (v ∈ dom (get σ s)), σ).
Proof.
  unfold maps.Has, map_has, mbind, M_bind, mret, M_ret.
  do 2 f_equal. apply bool_decide_ext. by rewrite elem_of_dom.
Qed.

Lemma Add_put σ l m v :
  maps.Add (Some l) v (put σ l m)
  = Some (bool_decide (v ∉ dom m), put σ l (<[v := ()]> m)).
Proof.
  unfold maps.Add. mrun Has_run. rewrite get_put_eq.
  destruct (decide (v ∈ dom m)) as [Hin|Hin].
  - rewrite bool_decide_true, bool_decide_false by auto.
    apply elem_of_dom in Hin as [[] Hv]. by rewrite insert_id.
  - rewrite bool_decide_false, bool_decide_true by auto.
    unfold map_assign, mbind, M_bind, mret, M_ret, put. simpl.
    rewrite lookup_insert_eq. simpl. by rewrite insert_insert_eq.
Qed.

Lemma Add_run σ l m v :
  heap σ !! l = Some m →
  maps.Add (Some l) v σ = Some (bool_decide (v ∉ dom m), put σ l (<[v := ()]> m)).
Proof. intros Hl. rewrite <- (put_id σ l m Hl) at 1. apply Add_put. Qed.

Lemma Add_nil σ v : maps.Add nil v σ = None.
Proof. done. Qed.

(** The store after [delete(s, v)]. *)
Lemma Remove_run σ s v :
  maps.Remove s v σ
  = Some (bool_decide (v ∈ dom (get σ s)),
          match s with
          | Some l => Mem (alter (delete v) l (heap σ)) (tick σ)
          | None => σ
          end).
Proof.
  unfold maps.Remove. mrun Has_run.
  destruct (decide (v ∈ dom (get σ s))) as [Hin|Hin].
  - rewrite bool_decide_true by done. by destruct s.
  - rewrite bool_decide_false by done. simpl. unfold mret, M_ret.
    destruct s as [l|]; [|done]. do 2 f_equal.
    destruct σ as [h t]. simpl. f_equal.
    apply map_eq. intros l'. destruct (decide (l = l')) as [<-|Hne].
    + rewrite lookup_alter_eq. unfold get in Hin. simpl in Hin.
      destruct (h !! l) as [m|]; [|done]. simpl in *.
      f_equal. symmetry. apply delete_id. by apply not_elem_of_dom.
    + by rewrite lookup_alter_ne.
Qed.

Lemma dom_add_keys vs m : dom (add_keys vs m) = dom m ∪ list_to_set vs.
Proof.
  revert m. induction vs as [|v vs IH]; intros m; simpl.
  - set_solver.
  - unfold add_keys in *. simpl. rewrite IH, dom_insert_L. set_solver.
Qed.

(** A loop that adds to the set [l] the values for which [cond] holds, and
    changes nothing else in the store. *)
Lemma for_range_put {A} (body : T → A → M (mem T) A) (cond : T → bool) σ l :
  (∀ v a m, ∃ a', body v a (put σ l m)
                  = Some (a', put σ l (if cond v then <[v := ()]> m else m))) →
  ∀ vs a m, ∃ a', for_range vs body a (put σ l m)
                  = Some (a', put σ l (add_keys (filter cond vs) m)).
Proof.
  intros Hbody. induction vs as [|v vs IH]; intros a m; simpl.
  - by eexists.
  - destruct (Hbody v a m) as [a' Ha']. mrun Ha'.
    destruct (IH a' (if cond v then <[v:=()]> m else m)) as [a'' Ha''].
    exists a''. rewrite Ha''. rewrite filter_cons.
    by destruct (cond v).
Qed.


Lemma elem_of_range_order n m v : v ∈ range_order n m ↔ v ∈ dom m.
Proof.
  rewrite (range_order_perm n m), elem_of_dom, list_elem_of_fmap.
  split.
  - intros [[k []] [-> Hk]]. apply elem_of_map_to_list in Hk. by eexists.
  - intros [[] Hv]. exists (v, ()). by rewrite elem_of_map_to_list.
Qed.

Lemma NoDup_range_order n m : NoDup (range_order n m).
Proof. rewrite (range_order_perm n m). apply NoDup_fst_map_to_list. Qed.

Lemma length_range_order n m : length (range_order n m) = size m.
Proof.
  rewrite (range_order_perm n m), length_fmap. apply length_map_to_list.
Qed.

(** A loop over the keys of [m0] that adds those for which [cond] holds
    to the set [l], which holds [m1] before the loop. *)
Lemma fill_loop {A} (body : T → A → M (mem T) A) (cond : T → bool) σ l n m0 m1 R a :
  (∀ v a m, ∃ a', body v a (put σ l m)
                  = Some (a', put σ l (if cond v then <[v := ()]> m else m))) →
  (∀ v, v ∈ dom R ↔ v ∈ dom m1 ∨ (v ∈ dom m0 ∧ cond v)) →
  ∃ a', for_range (range_order n m0) body a (put σ l m1) = Some (a', put σ l R).
Proof.
  intros Hbody HR.
  destruct (for_range_put body cond σ l Hbody (range_order n m0) a m1) as [a' Ha'].
  exists a'. rewrite Ha'. do 3 f_equal. apply unit_map_eq, set_eq. intros v.
  rewrite HR, dom_add_keys, elem_of_union, elem_of_list_to_set, list_elem_of_filter.
  by rewrite elem_of_range_order, (comm (∧)).
Qed.

Lemma get_put_next σ s : get (put σ (next σ) ∅) s = get σ s.
Proof.
  destruct (decide (s = Some (next σ))) as [->|Hne].
  - rewrite get_put_eq. unfold get. simpl. by rewrite next_fresh.
  - by apply get_put_ne.
Qed.

(** The three loop bodies of the two packages. *)
Lemma body_add σ l v (a : ()) m :
  ∃ a', (maps.Add (Some l) v;; mret ()) (put σ l m)
        = Some (a', put σ l (if (λ _, true) v then <[v := ()]> m else m)).
Proof. exists (). by mrun Add_put. Qed.

Lemma body_add_if_has σ l other v (a : ()) m :
  other ≠ Some l →
  ∃ a', (has ← maps.Has other v;
         if has : bool then maps.Add (Some l) v;; mret () else mret ()) (put σ l m)
        = Some (a', put σ l (if bool_decide (v ∈ dom (get σ other))
                             then <[v := ()]> m else m)).
Proof.
  intros Hne. exists ().
  mrun Has_run. rewrite get_put_ne by done.
  destruct (bool_decide _); [|done].
  by mrun Add_put.
Qed.

Lemma body_add_unless_has σ l other v (a : ()) m :
  other ≠ Some l →
  ∃ a', (has ← maps.Has other v;
         if negb has then maps.Add (Some l) v;; mret () else mret ()) (put σ l m)
        = Some (a', put σ l (if negb (bool_decide (v ∈ dom (get σ other)))
                             then <[v := ()]> m else m)).
Proof.
  intros Hne. exists ().
  mrun Has_run. rewrite get_put_ne by done.
  destruct (bool_decide _); simpl; [done|].
  by mrun Add_put.
Qed.

Lemma Clone_run s σ :
  maps.Clone s σ = Some (Some (next σ), tock (put σ (next σ) (get σ s))).
Proof.
  unfold maps.Clone.
  mrun make_run.
  mrun range_keys_run.
  rewrite get_put_next.
  destruct (fill_loop (λ v _, maps.Add (Some (next σ)) v;; mret ()) (λ _, true)
              (tock σ) (next σ) (tick σ) (get σ s) ∅ (get σ s) ()) as [[] Hloop].
  - intros v a m. apply body_add, a.
  - set_solver.
  - simpl in *. change (tock (put σ (next σ) ∅)) with (put (tock σ) (next σ) ∅).
    by mrun Hloop.
Qed.
End maps_facts.

Section maps_algebra.
Context `{Countable T} `{!RangeOrder T}.
Implicit Types (σ : mem T) (s other : SetRef) (l : loc) (m : gmap T ()) (v : T).

Lemma Len_run s σ : maps.Len s σ = Some (Z.of_nat (size (get σ s)), σ).
Proof. done. Qed.

Lemma Range_run {A} s (f : T → A → M (mem T) (bool * A)) a σ :
  maps.Range s f a σ
  = for_range_break (range_order (tick σ) (get σ s)) f a (tock σ).
Proof. unfold maps.Range. by mrun range_keys_run. Qed.

Lemma append_loop {S} (vs acc : list T) (σ : S) :
  for_range vs (λ v result, mret (result ++ [v])) acc σ = Some (acc ++ vs, σ).
Proof.
  revert acc. induction vs as [|v vs IH]; intros acc; simpl.
  - by rewrite app_nil_r.
  - unfold mbind, M_bind, mret, M_ret. rewrite IH. by rewrite <- app_assoc.
Qed.

Lemma Slice_run s σ :
  maps.Slice s σ = Some (range_order (tick σ) (get σ s), tock σ).
Proof. unfold maps.Slice. mrun range_keys_run. apply append_loop. Qed.

Lemma add_loop σ l vs m :
  for_range vs (λ v _, maps.Add (Some l) v;; mret ()) () (put σ l m)
  = Some ((), put σ l (add_keys vs m)).
Proof.
  revert m. induction vs as [|v vs IH]; intros m; simpl; [done|].
  assert (Hb : (maps.Add (Some l) v;; mret ()) (put σ l m)
               = Some ((), put σ l (<[v := ()]> m))) by (by mrun Add_put).
  mrun Hb. apply IH.
Qed.

Lemma NewSetFromSlice_run slice σ :
  maps.NewSetFromSlice slice σ
  = Some (Some (next σ), put σ (next σ) (add_keys slice ∅)).
Proof.
  unfold maps.NewSetFromSlice. mrun make_run. mrun add_loop.
  done.
Qed.

Lemma Intersect_run s other σ :
  valid σ other →
  maps.Intersect s other σ
  = Some (Some (next σ), tock (put σ (next σ) (get σ s ∩ get σ other))).
Proof.
  intros Hv. apply valid_ne_next in Hv. unfold maps.Intersect.
  mrun make_run. mrun range_keys_run. rewrite get_put_next.
  destruct (fill_loop
    (λ v _, has ← maps.Has other v;
            if has : bool then maps.Add (Some (next σ)) v;; mret () else mret ())
    (λ v, bool_decide (v ∈ dom (get σ other)))
    (tock σ) (next σ) (tick σ) (get σ s) ∅ (get σ s ∩ get σ other) ()) as [[] Hloop].
  - intros v a m. by apply (body_add_if_has (tock σ)).
  - intros v. rewrite dom_intersection_L, bool_decide_spec. set_solver.
  - change (tock (put σ (next σ) ∅)) with (put (tock σ) (next σ) ∅).
    by mrun Hloop.
Qed.

Lemma SetDiff_run s other σ :
  valid σ other →
  maps.SetDiff s other σ
  = Some (Some (next σ), tock (put σ (next σ) (get σ s ∖ get σ other))).
Proof.
  intros Hv. apply valid_ne_next in Hv. unfold maps.SetDiff.
  mrun make_run. mrun range_keys_run. rewrite get_put_next.
  destruct (fill_loop
    (λ v _, has ← maps.Has other v;
            if negb has then maps.Add (Some (next σ)) v;; mret () else mret ())
    (λ v, negb (bool_decide (v ∈ dom (get σ other))))
    (tock σ) (next σ) (tick σ) (get σ s) ∅ (get σ s ∖ get σ other) ()) as [[] Hloop].
  - intros v a m. by apply (body_add_unless_has (tock σ)).
  - intros v. rewrite dom_difference_L, negb_True, bool_decide_spec. set_solver.
  - change (tock (put σ (next σ) ∅)) with (put (tock σ) (next σ) ∅).
    by mrun Hloop.
Qed.
End maps_algebra.

Section maps_union.
Context `{Countable T} `{!RangeOrder T}.
Implicit Types (σ : mem T) (s other : SetRef) (l : loc) (m : gmap T ()) (v : T).

Lemma AddSet_put σ l set m R :
  set ≠ Some l →
  (∀ v, v ∈ dom R ↔ v ∈ dom m ∨ v ∈ dom (get σ set)) →
  ∃ n, maps.AddSet (Some l) set (put σ l m) = Some (n, tock (put σ l R)).
Proof.
  intros Hne HR. unfold maps.AddSet. rewrite Range_run, get_put_ne by done.
  rewrite (for_range_break_true _
    (λ value added, ok ← maps.Add (Some l) value;
                    mret (if ok : bool then int_incr added else added))).
  - change (tock (put σ l ?x)) with (put (tock σ) l x).
    apply (fill_loop _ (λ _, true)).
    + intros v a m'. eexists. by mrun Add_put.
    + intros v. rewrite HR. naive_solver.
  - intros v a σ'. unfold mbind, M_bind.
    by destruct (maps.Add (Some l) v σ') as [[[] ?]|].
Qed.

Lemma Union_run s other σ :
  valid σ other →
  maps.Union s other σ
  = Some (Some (next σ), tock (tock (put σ (next σ) (get σ s ∪ get σ other)))).
Proof.
  intros Hv. apply valid_ne_next in Hv. unfold maps.Union.
  mrun Clone_run.
  destruct (AddSet_put (tock σ) (next σ) other (get σ s) (get σ s ∪ get σ other))
    as [n Hn]; [done | |].
  - intros v. rewrite dom_union_L. set_solver.
  - change (tock (put σ (next σ) (get σ s)))
      with (put (tock σ) (next σ) (get σ s)).
    by mrun Hn.
Qed.

Lemma SymDiff_run s other σ :
  valid σ s → valid σ other →
  maps.SymDiff s other σ
  = Some (Some (next σ),
          tock (tock (put σ (next σ)
            ((get σ s ∖ get σ other) ∪ (get σ other ∖ get σ s))))).
Proof.
  intros Hs Ho. unfold maps.SymDiff.
  rewrite (bind_run (maps.SetDiff s other) _ _ _ _ (SetDiff_run s other σ Ho)).
  apply valid_ne_next in Hs, Ho.
  rewrite (bind_run (maps.Range _ _ _) _ _
    (tock (tock (put σ (next σ)
       ((get σ s ∖ get σ other) ∪ (get σ other ∖ get σ s))))) ()); [done|].
  rewrite Range_run. simpl.
  change (tock (tock (put σ (next σ) ?m))) with (put (tock (tock σ)) (next σ) m).
  rewrite (for_range_break_true _
    (λ value _, has ← maps.Has s value;
       if negb has then maps.Add (Some (next σ)) value;; mret () else mret ())).
  - change (get (tock ?σ') other) with (get σ' other).
    rewrite get_put_ne by done.
    destruct (fill_loop
      (λ value (_ : ()), has ← maps.Has s value;
         if negb has then maps.Add (Some (next σ)) value;; mret () else mret ())
      (λ v, negb (bool_decide (v ∈ dom (get σ s))))
      (tock (tock σ)) (next σ) (S (tick σ)) (get σ other) (get σ s ∖ get σ other)
      ((get σ s ∖ get σ other) ∪ (get σ other ∖ get σ s)) ()) as [[] Hloop].
    + intros v a m. by apply (body_add_unless_has (tock (tock σ))).
    + intros v. rewrite dom_union_L, !dom_difference_L, negb_True, bool_decide_spec.
      set_solver.
    + exact Hloop.
  - intros v [] σ'. unfold mbind, M_bind.
    destruct (maps.Has s v σ') as [[[] ?]|]; simpl; [done| |done].
    destruct (maps.Add (Some (next σ)) v m) as [[? ?]|]; done.
Qed.
End maps_union.

(** ** The methods of [typ.Set], run on a store

    Where the two packages have the same code the methods are the same
    computations. *)

Section typ_facts.
Context `{Countable T} `{!RangeOrder T}.
Implicit Types (σ : mem T) (s other : SetRef) (l : loc) (m : gmap T ()) (v : T).

Lemma typ_Has_eq s v : typ.Has s v = maps.Has s v.
Proof. reflexivity. Qed.

Lemma typ_Set_eq s v : typ.Set_ s v = maps.Add s v.
Proof. reflexivity. Qed.

Lemma typ_Unset_eq s v : typ.Unset s v = maps.Remove s v.
Proof. reflexivity. Qed.

Lemma typ_Clone_eq s : typ.Clone s = maps.Clone s.
Proof. reflexivity. Qed.

Lemma typ_Slice_eq s : typ.Slice s = maps.Slice s.
Proof. reflexivity. Qed.

Lemma typ_Intersect_eq s other : typ.Intersect s other = maps.Intersect s other.
Proof. reflexivity. Qed.

Lemma typ_SetDiff_eq s other : typ.SetDiff s other = maps.SetDiff s other.
Proof. reflexivity. Qed.

Lemma typ_Union_run s other σ :
  valid σ other →
  typ.Union s other σ
  = Some (Some (next σ), tock (tock (put σ (next σ) (get σ s ∪ get σ other)))).
Proof.
  intros Hv. apply valid_ne_next in Hv. unfold typ.Union.
  rewrite typ_Clone_eq. mrun Clone_run. mrun range_keys_run.
  change (get (tock ?σ') other) with (get σ' other).
  rewrite get_put_ne by done.
  change (tock (tock (put σ (next σ) ?m))) with (put (tock (tock σ)) (next σ) m).
  destruct (fill_loop (λ v _, typ.Set_ (Some (next σ)) v;; mret ()) (λ _, true)
              (tock (tock σ)) (next σ) (tick (tock σ)) (get σ other) (get σ s)
              (get σ s ∪ get σ other) ()) as [[] Hloop].
  - intros v a m. apply body_add, a.
  - intros v. rewrite dom_union_L. set_solver.
  - by mrun Hloop.
Qed.

Lemma typ_SymDiff_run s other σ :
  valid σ s → valid σ other →
  typ.SymDiff s other σ
  = Some (Some (next σ),
          tock (tock (put σ (next σ)
            ((get σ s ∖ get σ other) ∪ (get σ other ∖ get σ s))))).
Proof.
  intros Hs Ho. apply valid_ne_next in Hs, Ho. unfold typ.SymDiff.
  mrun make_run. mrun range_keys_run. rewrite get_put_next.
  destruct (fill_loop
    (λ v _, has ← typ.Has other v;
            if negb has then typ.Set_ (Some (next σ)) v;; mret () else mret ())
    (λ v, negb (bool_decide (v ∈ dom (get σ other))))
    (tock σ) (next σ) (tick σ) (get σ s) ∅ (get σ s ∖ get σ other) ()) as [[] Hl1].
  { intros v a m. by apply (body_add_unless_has (tock σ)). }
  { intros v. rewrite dom_difference_L, negb_True, bool_decide_spec. set_solver. }
  change (tock (put σ (next σ) ∅)) with (put (tock σ) (next σ) ∅).
  mrun Hl1. mrun range_keys_run.
  change (get (put (tock σ) ?l ?m) other) with (get (put σ l m) other).
  rewrite get_put_ne by done.
  destruct (fill_loop
    (λ v _, has ← typ.Has s v;
            if negb has then typ.Set_ (Some (next σ)) v;; mret () else mret ())
    (λ v, negb (bool_decide (v ∈ dom (get σ s))))
    (tock (tock σ)) (next σ) (tick (tock σ)) (get σ other) (get σ s ∖ get σ other)
    ((get σ s ∖ get σ other) ∪ (get σ other ∖ get σ s)) ()) as [[] Hl2].
  { intros v a m. by apply (body_add_unless_has (tock (tock σ))). }
  { intros v. rewrite dom_union_L, !dom_difference_L, negb_True, bool_decide_spec.
    set_solver. }
  change (tock (put (tock σ) (next σ) ?m)) with (put (tock (tock σ)) (next σ) m).
  by mrun Hl2.
Qed.
End typ_facts.

(** ** [CartesianProduct], run on a store *)

Section product_facts.
Context `{Countable TA} `{Countable TB}.
Context `{!RangeOrder TA} `{!RangeOrder TB}.
Implicit Types (σ : typ.mem3 TA TB) (p : typ.SetProduct TA TB).
Implicit Types (P : mem (typ.SetProduct TA TB)).

Lemma inner_loop (mA : mem TA) (mB : mem TB) P l (valueA : TA) (vbs : list TB) m :
  for_range vbs (λ valueB _,
    typ.onP (typ.Set_ (Some l) (typ.mkSetProduct valueA valueB));; mret ()) ()
    (typ.Mem3 mA mB (put P l m))
  = Some ((), typ.Mem3 mA mB (put P l (add_keys (typ.mkSetProduct valueA <$> vbs) m))).
Proof.
  revert m. induction vbs as [|vb vbs IH]; intros m; simpl; [done|].
  assert (Hb : (typ.onP (typ.Set_ (Some l) (typ.mkSetProduct valueA vb));; mret ())
                 (typ.Mem3 mA mB (put P l m))
               = Some ((), typ.Mem3 mA mB
                   (put P l (<[typ.mkSetProduct valueA vb := ()]> m)))).
  { unfold mbind, M_bind, typ.onP. simpl. by rewrite typ_Set_eq, Add_put. }
  mrun Hb. apply IH.
Qed.

Lemma add_keys_app {T} `{Countable T} (l1 l2 : list T) (m : gmap T ()) :
  add_keys (l1 ++ l2) m = add_keys l2 (add_keys l1 m).
Proof. apply foldl_app. Qed.

Lemma outer_loop (mA : mem TA) (mB : mem TB) P l (b : SetRef) (vas : list TA) m :
  for_range vas (λ valueA _,
    vbs ← typ.onB (range_keys b);
    for_range vbs (λ valueB _,
      typ.onP (typ.Set_ (Some l) (typ.mkSetProduct valueA valueB));; mret ()) ()) ()
    (typ.Mem3 mA mB (put P l m))
  = Some ((), typ.Mem3 mA (Nat.iter (length vas) tock mB)
      (put P l (add_keys (pairs_from (tick mB) vas (get mB b)) m))).
Proof.
  revert mB m. induction vas as [|va vas IH]; intros mB m; [done|].
  cbn [for_range].
  assert (Hb : (vbs ← typ.onB (range_keys b);
                for_range vbs (λ valueB _,
                  typ.onP (typ.Set_ (Some l) (typ.mkSetProduct va valueB));;
                  mret ()) ())
                 (typ.Mem3 mA mB (put P l m))
               = Some ((), typ.Mem3 mA (tock mB)
                   (put P l (add_keys
                      (typ.mkSetProduct va <$> range_order (tick mB) (get mB b)) m)))).
  { unfold mbind at 1, M_bind at 1, typ.onB.
    cbn [typ.memA typ.memB typ.memP]. rewrite range_keys_run. apply inner_loop. }
  mrun Hb. rewrite IH. cbn [pairs_from length]. rewrite add_keys_app.
  by rewrite Nat.iter_succ_r.
Qed.

Lemma elem_of_pairs_from n (vas : list TA) (mb : gmap TB ()) p :
  p ∈ pairs_from n vas mb ↔ typ.A p ∈ vas ∧ typ.B p ∈ dom mb.
Proof.
  revert n. induction vas as [|va vas IH]; intros n; cbn [pairs_from].
  - rewrite elem_of_nil. split; [done|]. intros [Hp _]. by apply elem_of_nil in Hp.
  - rewrite elem_of_app, IH, list_elem_of_fmap, elem_of_cons. split.
    + intros [(vb & -> & Hvb)|[? ?]]; simpl; [|by auto].
      apply elem_of_range_order in Hvb. by auto.
    + intros [[Hp|Hp] Hb]; [left|by right].
      exists (typ.B p). rewrite elem_of_range_order.
      split; [destruct p; simpl in *; by subst | done].
Qed.

Lemma NoDup_pairs_from n (vas : list TA) (mb : gmap TB ()) :
  NoDup vas → NoDup (pairs_from n vas mb).
Proof.
  revert n. induction vas as [|va vas IH]; intros n Hnd; cbn [pairs_from].
  - constructor.
  - apply NoDup_cons in Hnd as [Hva Hnd]. apply NoDup_app. split_and!.
    + apply NoDup_fmap_2_strong; [|apply NoDup_range_order]. by intros ?? _ _ [=].
    + intros p (vb & -> & _)%list_elem_of_fmap [Hp _]%elem_of_pairs_from. done.
    + by apply IH.
Qed.

Lemma length_pairs_from n (vas : list TA) (mb : gmap TB ()) :
  length (pairs_from n vas mb) = (length vas * size mb)%nat.
Proof.
  revert n. induction vas as [|va vas IH]; intros n; cbn [pairs_from]; [done|].
  by rewrite length_app, length_fmap, length_range_order, IH.
Qed.

Lemma size_add_keys {T} `{Countable T} (vs : list T) :
  NoDup vs → size (add_keys vs ∅) = length vs.
Proof.
  intros Hnd. rewrite <- size_dom, dom_add_keys, dom_empty_L, (left_id_L ∅ (∪)).
  by apply size_list_to_set.
Qed.

(** [CartesianProduct] makes one set, whose elements are the pairs of an
    element of [a] and an element of [b]; it goes once through [a] and
    once through [b] for every element of [a]. *)
Lemma CartesianProduct_run (a b : SetRef) σ :
  ∃ R : gmap (typ.SetProduct TA TB) (),
    typ.CartesianProduct a b σ
    = Some (Some (next (typ.memP σ)),
            typ.Mem3 (tock (typ.memA σ))
              (Nat.iter (size (get (typ.memA σ) a)) tock (typ.memB σ))
              (put (typ.memP σ) (next (typ.memP σ)) R))
    ∧ (∀ p, p ∈ dom R ↔ typ.A p ∈ dom (get (typ.memA σ) a)
                        ∧ typ.B p ∈ dom (get (typ.memB σ) b))
    ∧ size R = (size (get (typ.memA σ) a) * size (get (typ.memB σ) b))%nat.
Proof.
  destruct σ as [mA mB P]. cbn [typ.memA typ.memB typ.memP].
  exists (add_keys (pairs_from (tick mB) (range_order (tick mA) (get mA a)) (get mB b)) ∅).
  split_and!.
  - unfold typ.CartesianProduct.
    unfold mbind at 1, M_bind at 1, typ.onP at 1. cbn [typ.memA typ.memB typ.memP].
    rewrite make_run.
    unfold mbind at 1, M_bind at 1, typ.onA at 1. cbn [typ.memA typ.memB typ.memP].
    rewrite range_keys_run.
    unfold mbind at 1, M_bind at 1. rewrite outer_loop.
    by rewrite length_range_order.
  - intros p. rewrite dom_add_keys, dom_empty_L, (left_id_L ∅ (∪)).
    by rewrite elem_of_list_to_set, elem_of_pairs_from, elem_of_range_order.
  - rewrite size_add_keys by apply NoDup_pairs_from, NoDup_range_order.
    by rewrite length_pairs_from, length_range_order.
Qed.
End product_facts.

(** ** Histories of calls on one set *)

Section history_facts.
Context `{Countable T} `{!RangeOrder T}.
Implicit Types (σ : mem T) (s : SetRef) (l : loc) (m : gmap T ()) (v : T).
Implicit Types (o : op T) (ops : list (op T)).

Lemma Remove_put σ l m v :
  maps.Remove (Some l) v (put σ l m)
  = Some (bool_decide (v ∈ dom m), put σ l (delete v m)).
Proof.
  rewrite Remove_run, get_put_eq. unfold put. simpl.
  by rewrite alter_insert_eq.
Qed.

Lemma run_op_put σ l m o :
  ∃ b, run_op (Some l) o (put σ l m) = Some (b, put σ l (op_map m o)).
Proof.
  destruct o as [v|v]; simpl; eexists; [apply Add_put | apply Remove_put].
Qed.

Lemma run_ops_put σ l ops m :
  run_ops (Some l) ops (put σ l m) = Some ((), put σ l (foldl op_map m ops)).
Proof.
  unfold run_ops. revert m. induction ops as [|o ops IH]; intros m; simpl; [done|].
  destruct (run_op_put σ l m o) as [b Hb].
  assert (Hb' : (run_op (Some l) o;; mret ()) (put σ l m)
                = Some ((), put σ l (op_map m o))) by (by mrun Hb).
  mrun Hb'. apply IH.
Qed.







End history_facts.

(** * The claims *)

Section claims.
Context `{Countable T} `{!RangeOrder T}.
Implicit Types (σ : mem T) (s other : SetRef) (l : loc) (m : gmap T ()) (v : T).


End claims.

Section algebra_claims.
Context `{Countable T} `{!RangeOrder T}.
Implicit Types (σ : mem T) (s other a b : SetRef) (l : loc) (m : gmap T ()) (v : T).

Lemma same_members_get σ1 s1 σ2 s2 :
  get σ1 s1 = get σ2 s2 → same_members σ1 s1 σ2 s2.
Proof. intros Heq. split; [intros v|]; by rewrite ?Has_run, ?Len_run, Heq. Qed.

Lemma same_members_dom σ1 s1 σ2 s2 :
  same_members σ1 s1 σ2 s2 → dom (get σ1 s1) = dom (get σ2 s2).
Proof.
  intros [Hhas _]. apply set_eq. intros v. specialize (Hhas v).
  rewrite !Has_run in Hhas. simpl in Hhas.
  injection Hhas as Hhas.
  by rewrite <- (bool_decide_eq_true (v ∈ dom (get σ1 s1))), Hhas, bool_decide_eq_true.
Qed.

Lemma same_set_get (x1 x2 : option (SetRef * mem T)) r1 σ1 r2 σ2 :
  x1 = Some (r1, σ1) → x2 = Some (r2, σ2) → get σ1 r1 = get σ2 r2 →
  same_set x1 x2.
Proof. intros -> -> Heq. exists r1, σ1, r2, σ2. auto using same_members_get. Qed.

Lemma get_tock_put_next σ m : get (tock (put σ (next σ) m)) (Some (next σ)) = m.
Proof. apply get_put_eq. Qed.

Lemma get_tock2_put_next σ m :
  get (tock (tock (put σ (next σ) m))) (Some (next σ)) = m.
Proof. apply get_put_eq. Qed.

(** C3 (commutativity).  [Union], [Intersect] and [SymDiff] of two sets give
    sets with the same elements whichever operand comes first.  The two
    calls may start from different stores in which the operands hold the
    same elements: from the same store, or one call after the other. *)
Theorem algebra_commutative σ σ' a b :
  valid σ a → valid σ b → valid σ' a → valid σ' b →
  get σ a = get σ' a → get σ b = get σ' b →
  same_set (maps.Union a b σ) (maps.Union b a σ')
  ∧ same_set (maps.Intersect a b σ) (maps.Intersect b a σ')
  ∧ same_set (maps.SymDiff a b σ) (maps.SymDiff b a σ').
Proof.
  intros Ha Hb Ha' Hb' Hea Heb. split_and!.
  - eapply same_set_get; [by apply Union_run..|].
    rewrite !get_tock2_put_next, Hea, Heb.
    apply unit_map_eq. rewrite !dom_union_L. set_solver.
  - eapply same_set_get; [by apply Intersect_run..|].
    rewrite !get_tock_put_next, Hea, Heb.
    apply unit_map_eq. rewrite !dom_intersection_L. set_solver.
  - eapply same_set_get; [by apply SymDiff_run..|].
    rewrite !get_tock2_put_next, Hea, Heb.
    apply unit_map_eq. rewrite !dom_union_L, !dom_difference_L. set_solver.
Qed.
End algebra_claims.

Section SetDiff_claims.
Context `{Countable T} `{!RangeOrder T}.
Implicit Types (σ : mem T) (s other a b : SetRef) (l : loc) (m : gmap T ()) (v : T).

Lemma valid_put σ l m s : valid σ s → valid (put σ l m) s.
Proof.
  destruct s as [l'|]; [|done]. simpl. intros Hs.
  destruct (decide (l = l')) as [->|Hne].
  - rewrite lookup_insert_eq. by eexists.
  - by rewrite lookup_insert_ne.
Qed.

Lemma valid_put_eq σ l m : valid (put σ l m) (Some l).
Proof. simpl. rewrite lookup_insert_eq. by eexists. Qed.

(** Two sets made from slices, one after the other. *)
Lemma two_sets_run (la lb : list T) σ :
  ∃ a b σ2,
    (a ← maps.NewSetFromSlice la; b ← maps.NewSetFromSlice lb; mret (a, b)) σ
    = Some ((a, b), σ2)
    ∧ valid σ2 a ∧ valid σ2 b
    ∧ dom (get σ2 a) = list_to_set la ∧ dom (get σ2 b) = list_to_set lb.
Proof.
  set (σ1 := put σ (next σ) (add_keys la ∅)).
  exists (Some (next σ)), (Some (next σ1)), (put σ1 (next σ1) (add_keys lb ∅)).
  assert (Hv : valid σ1 (Some (next σ))) by apply valid_put_eq.
  split_and!.
  - mrun NewSetFromSlice_run. by mrun NewSetFromSlice_run.
  - by apply valid_put.
  - apply valid_put_eq.
  - rewrite get_put_ne by (by apply valid_ne_next).
    unfold σ1. rewrite get_put_eq, dom_add_keys, dom_empty_L. set_solver.
  - rewrite get_put_eq, dom_add_keys, dom_empty_L. set_solver.
Qed.

(** What [SetDiff] returns, for both packages. *)
Lemma SetDiff_members σ a b :
  valid σ b →
  ∃ d σd,
    maps.SetDiff a b σ = Some (d, σd)
    ∧ typ.SetDiff a b σ = Some (d, σd)
    ∧ dom (get σd d) = dom (get σ a) ∖ dom (get σ b)
    ∧ ∀ v, ∃ ha hb,
        maps.Has a v σ = Some (ha, σ)
        ∧ maps.Has b v σ = Some (hb, σ)
        ∧ maps.Has d v σd = Some (ha && negb hb, σd).
Proof.
  intros Hb. eexists _, _.
  assert (Hd : dom (get (tock (put σ (next σ) (get σ a ∖ get σ b))) (Some (next σ)))
               = dom (get σ a) ∖ dom (get σ b)).
  { by rewrite get_tock_put_next, dom_difference_L. }
  split_and!; [by apply SetDiff_run | rewrite typ_SetDiff_eq; by apply SetDiff_run
              | exact Hd |].
  intros v. eexists _, _. split_and!; [apply Has_run..|].
  rewrite Has_run, Hd. do 2 f_equal.
  rewrite <- bool_decide_not, <- bool_decide_and. apply bool_decide_ext. set_solver.
Qed.
End SetDiff_claims.

(** C4 (SetDiff).  [SetDiff(A,B)] holds [v] exactly when [A] holds it and [B]
    does not, in both packages; the results of [SetDiff(A,B)] and
    [SetDiff(B,A)] differ whenever the differences of the operands do; and
    with [A = {1,2,3}] and [B = {3,4,5}] they are [{1,2}] and [{4,5}]. *)
Theorem SetDiff_correct :
  (∀ `{Countable T} `{!RangeOrder T} (σ : mem T) (a b : SetRef),
     valid σ a → valid σ b →
     ∃ d σd e σe,
       maps.SetDiff a b σ = Some (d, σd)
       ∧ typ.SetDiff a b σ = Some (d, σd)
       ∧ maps.SetDiff b a σ = Some (e, σe)
       ∧ (∀ v, ∃ ha hb,
            maps.Has a v σ = Some (ha, σ)
            ∧ maps.Has b v σ = Some (hb, σ)
            ∧ maps.Has d v σd = Some (ha && negb hb, σd)
            ∧ maps.Has e v σe = Some (hb && negb ha, σe))
       ∧ (dom (get σ a) ∖ dom (get σ b) ≠ dom (get σ b) ∖ dom (get σ a) →
          ¬ same_members σd d σe e))
  ∧ (∀ `{!RangeOrder Z} (σ : mem Z),
       ∃ a b σ2 d σd e σe,
         (a ← maps.NewSetFromSlice [1; 2; 3];
          b ← maps.NewSetFromSlice [3; 4; 5];
          mret (a, b)) σ = Some ((a, b), σ2)
         ∧ maps.SetDiff a b σ2 = Some (d, σd)
         ∧ maps.SetDiff b a σ2 = Some (e, σe)
         ∧ dom (get σd d) = {[1; 2]}
         ∧ dom (get σe e) = {[4; 5]}
         ∧ ¬ same_members σd d σe e).
Proof.
  split.
  - intros T ? ? ? σ a b Ha Hb.
    destruct (SetDiff_members σ a b Hb) as (d & σd & Hd & Hd' & Hdd & Hdh).
    destruct (SetDiff_members σ b a Ha) as (e & σe & He & _ & Hed & Heh).
    exists d, σd, e, σe. split_and!; [done..| |].
    + intros v. destruct (Hdh v) as (ha & hb & Hha & Hhb & Hhd).
      destruct (Heh v) as (hb' & ha' & Hhb' & Hha' & Hhe).
      exists ha, hb. split_and!; [done..|]. congruence.
    + intros Hne Hsame%same_members_dom. congruence.
  - intros ? σ.
    destruct (two_sets_run [1; 2; 3] [3; 4; 5] σ)
      as (a & b & σ2 & Hrun & Ha & Hb & Hda & Hdb).
    destruct (SetDiff_members σ2 a b Hb) as (d & σd & Hd & _ & Hdd & _).
    destruct (SetDiff_members σ2 b a Ha) as (e & σe & He & _ & Hed & _).
    exists a, b, σ2, d, σd, e, σe.
    assert (Hd12 : dom (get σd d) = {[1; 2]}).
    { rewrite Hdd, Hda, Hdb. by vm_compute. }
    assert (He45 : dom (get σe e) = {[4; 5]}).
    { rewrite Hed, Hda, Hdb. by vm_compute. }
    split_and!; [done..|].
    intros Hsame%same_members_dom. rewrite Hd12, He45 in Hsame.
    by vm_compute in Hsame.
Qed.

Section product_claims.
Context `{Countable TA} `{Countable TB}.
Context `{!RangeOrder TA} `{!RangeOrder TB}.

(** C5 (Cartesian product).  [CartesianProduct(A,B)] returns a set that holds
    the pair [(va,vb)] exactly when [A] holds [va] and [B] holds [vb]; its
    length is the product of the lengths of [A] and [B]; pairs that differ in
    a component are different elements. *)
Theorem CartesianProduct_cardinality (a b : SetRef) (σ : typ.mem3 TA TB) :
  ∃ r σ',
    typ.CartesianProduct a b σ = Some (r, σ')
    ∧ (∀ va vb, ∃ ha hb,
         typ.Has a va (typ.memA σ) = Some (ha, typ.memA σ)
         ∧ typ.Has b vb (typ.memB σ) = Some (hb, typ.memB σ)
         ∧ typ.Has r (typ.mkSetProduct va vb) (typ.memP σ')
           = Some (ha && hb, typ.memP σ'))
    ∧ (∃ na nb,
         len a (typ.memA σ) = Some (na, typ.memA σ)
         ∧ len b (typ.memB σ) = Some (nb, typ.memB σ)
         ∧ len r (typ.memP σ') = Some (na * nb, typ.memP σ'))
    ∧ (∀ (va va' : TA) (vb vb' : TB),
         typ.mkSetProduct va vb = typ.mkSetProduct va' vb' → va = va' ∧ vb = vb').
Proof.
  destruct (CartesianProduct_run a b σ) as (R & Hrun & Hdom & Hsize).
  eexists _, _. split_and!; [exact Hrun | | |].
  - intros va vb. eexists _, _. rewrite !typ_Has_eq.
    split_and!; [apply Has_run..|].
    rewrite Has_run. cbn [typ.memP]. rewrite get_put_eq. do 2 f_equal.
    rewrite <- bool_decide_and. apply bool_decide_ext. by rewrite Hdom.
  - eexists _, _. split_and!; [done..|].
    unfold len. cbn [typ.memP]. rewrite get_put_eq, Hsize.
    by rewrite Nat2Z.inj_mul.
  - by intros va va' vb vb' [= -> ->].
Qed.
End product_claims.

Section Slice_claims.
Context `{Countable T} `{!RangeOrder T}.
Implicit Types (σ : mem T) (s other a b : SetRef) (l : loc) (m : gmap T ()) (v : T).

(** C6 (round trip through Slice).  A set made from [S.Slice()] has the
    elements of [S]: [Has] answers the same for every value and [Len] is the
    same, compared with [S] before the calls and with [S] after them. *)
Theorem Slice_round_trip σ s :
  ∃ vs σ1 r σ2,
    maps.Slice s σ = Some (vs, σ1)
    ∧ maps.NewSetFromSlice vs σ1 = Some (r, σ2)
    ∧ same_members σ2 r σ s
    ∧ same_members σ2 r σ2 s.
Proof.
  eexists _, _, _, _. split; [apply Slice_run|]. split; [apply NewSetFromSlice_run|].
  assert (Hr : get (put (tock σ) (next (tock σ)) (add_keys (range_order (tick σ) (get σ s)) ∅))
                 (Some (next (tock σ))) = get σ s).
  { rewrite get_put_eq. apply unit_map_eq, set_eq. intros v.
    rewrite dom_add_keys, dom_empty_L, elem_of_union, elem_of_list_to_set.
    rewrite elem_of_range_order. set_solver. }
  split; apply same_members_get; [exact Hr|].
  destruct (decide (s = Some (next (tock σ)))) as [->|Hne].
  - done.
  - by rewrite Hr, get_put_ne.
Qed.
End Slice_claims.

Section fresh_claims.
Context `{Countable T} `{!RangeOrder T}.
Implicit Types (σ : mem T) (s other a b : SetRef) (l : loc) (m : gmap T ()) (v : T).

Lemma returns_new_set_intro σ σ' (x : option (SetRef * mem T)) R :
  x = Some (Some (next σ), σ') →
  heap σ' = <[next σ := R]> (heap σ) →
  returns_new_set σ x.
Proof.
  intros -> Hheap. exists (next σ), σ'. split_and!; [done | apply next_fresh |].
  intros s Hs. pose proof (valid_ne_next σ s Hs) as Hne. split_and!; [done | |].
  - destruct s as [l|]; [|done]. simpl in *.
    rewrite Hheap, lookup_insert_ne by congruence. done.
  - unfold get. destruct s as [l|]; [|done]. simpl.
    rewrite Hheap, lookup_insert_ne by congruence. done.
Qed.

Lemma run_ops_run σ l m (ops : list (op T)) :
  heap σ !! l = Some m →
  run_ops (Some l) ops σ = Some ((), put σ l (foldl op_map m ops)).
Proof. intros Hl. rewrite <- (put_id σ l m Hl) at 1. apply run_ops_put. Qed.

(** What the algebra of package [maps] and [Clone] leave in the store. *)
Lemma maps_new_sets σ a b :
  valid σ a → valid σ b →
  returns_new_set σ (maps.Union a b σ)
  ∧ returns_new_set σ (maps.Intersect a b σ)
  ∧ returns_new_set σ (maps.SetDiff a b σ)
  ∧ returns_new_set σ (maps.SymDiff a b σ)
  ∧ returns_new_set σ (maps.Clone a σ).
Proof.
  intros Ha Hb. split_and!.
  - eapply returns_new_set_intro; [by apply Union_run | done].
  - eapply returns_new_set_intro; [by apply Intersect_run | done].
  - eapply returns_new_set_intro; [by apply SetDiff_run | done].
  - eapply returns_new_set_intro; [by apply SymDiff_run | done].
  - eapply returns_new_set_intro; [by apply Clone_run | done].
Qed.

(** A clone and the set it was made from do not share their map. *)
Lemma Clone_independent σ a :
  valid σ a →
  ∃ c σ',
    maps.Clone a σ = Some (c, σ')
    ∧ same_members σ' c σ a
    ∧ (∀ ops, ∃ σ'',
         run_ops c ops σ' = Some ((), σ'')
         ∧ get σ'' a = get σ a
         ∧ get σ'' c = foldl op_map (get σ a) ops)
    ∧ (a ≠ nil → ∀ ops, ∃ σ'',
         run_ops a ops σ' = Some ((), σ'')
         ∧ get σ'' c = get σ a
         ∧ get σ'' a = foldl op_map (get σ a) ops).
Proof.
  intros Ha. pose proof (valid_ne_next σ a Ha) as Hne.
  eexists _, _. split_and!; [apply Clone_run | | |].
  - apply same_members_get, get_tock_put_next.
  - intros ops. eexists.
    change (tock (put σ (next σ) ?m)) with (put (tock σ) (next σ) m).
    split_and!; [apply run_ops_put | | ].
    + by rewrite get_put_ne.
    + by rewrite get_put_eq.
  - intros Hnil ops. destruct a as [la|]; [|done]. simpl in Ha.
    destruct Ha as [m Hm].
    assert (Hla : heap (tock (put σ (next σ) (get σ (Some la)))) !! la = Some m).
    { simpl. rewrite lookup_insert_ne by congruence. done. }
    assert (Hget : get σ (Some la) = m) by (unfold get; simpl; by rewrite Hm).
    eexists. split_and!; [by apply run_ops_run | |].
    + rewrite get_put_ne by congruence. apply get_tock_put_next.
    + by rewrite get_put_eq, Hget.
Qed.
End fresh_claims.

(** C7 (new sets, untouched operands).  [Union], [Intersect], [SetDiff],
    [SymDiff], [Clone] and [CartesianProduct] return a set made during the
    call, at a location that no set of the store had, and leave every set of
    the store, the operands among them, with the elements it had.  A clone
    has the elements of the set it was made from; calls of [Add] and [Remove]
    on the clone leave that set as it was, and calls on that set leave the
    clone as it was. *)
Theorem new_sets_and_clones :
  (∀ `{Countable T} `{!RangeOrder T} (σ : mem T) (a b : SetRef),
     valid σ a → valid σ b →
     returns_new_set σ (maps.Union a b σ)
     ∧ returns_new_set σ (maps.Intersect a b σ)
     ∧ returns_new_set σ (maps.SetDiff a b σ)
     ∧ returns_new_set σ (maps.SymDiff a b σ)
     ∧ returns_new_set σ (maps.Clone a σ)
     ∧ ∃ c σ',
         maps.Clone a σ = Some (c, σ')
         ∧ same_members σ' c σ a
         ∧ (∀ ops, ∃ σ'',
              run_ops c ops σ' = Some ((), σ'')
              ∧ get σ'' a = get σ a
              ∧ get σ'' c = foldl op_map (get σ a) ops)
         ∧ (a ≠ nil → ∀ ops, ∃ σ'',
              run_ops a ops σ' = Some ((), σ'')
              ∧ get σ'' c = get σ a
              ∧ get σ'' a = foldl op_map (get σ a) ops))
  ∧ (∀ `{Countable TA} `{Countable TB} `{!RangeOrder TA} `{!RangeOrder TB}
       (σ : typ.mem3 TA TB) (a b : SetRef),
       ∃ l σ',
         typ.CartesianProduct a b σ = Some (Some l, σ')
         ∧ heap (typ.memP σ) !! l = None
         ∧ (∀ s, valid (typ.memP σ) s →
              s ≠ Some l ∧ valid (typ.memP σ') s
              ∧ get (typ.memP σ') s = get (typ.memP σ) s)
         ∧ heap (typ.memA σ') = heap (typ.memA σ)
         ∧ heap (typ.memB σ') = heap (typ.memB σ)).
Proof.
  split.
  - intros T ? ? ? σ a b Ha Hb.
    destruct (maps_new_sets σ a b Ha Hb) as (? & ? & ? & ? & ?).
    split_and!; [done..|]. by apply Clone_independent.
  - intros TA ? ? TB ? ? ? ? σ a b.
    destruct (CartesianProduct_run a b σ) as (R & Hrun & _).
    destruct (returns_new_set_intro (typ.memP σ)
                (put (typ.memP σ) (next (typ.memP σ)) R)
                (Some (Some (next (typ.memP σ)),
                       put (typ.memP σ) (next (typ.memP σ)) R)) R eq_refl eq_refl)
      as (l & σP & [= <- <-] & Hl & Hs).
    eexists _, _. split_and!; [exact Hrun | exact Hl | exact Hs | done |].
    cbn [typ.memB]. clear. induction (size _) as [|n IH]; [done|].
    by rewrite Nat.iter_succ.
Qed.

Section Range_claims.
Context `{Countable T} `{!RangeOrder T}.
Implicit Types (σ : mem T) (s other : SetRef) (l : loc) (m : gmap T ()) (v : T).

Lemma logging_all {A} (f : T → A → M (mem T) (bool * A)) (vs : list T) :
  (∀ v a σ, ∃ a' σ', f v a σ = Some ((true, a'), σ')) →
  ∀ a log σ, ∃ a' σ',
    for_range_break vs (logging f) (a, log) σ = Some ((a', log ++ vs), σ').
Proof.
  intros Hf. induction vs as [|v vs IH]; intros a log σ.
  - exists a, σ. by rewrite app_nil_r.
  - destruct (Hf v a σ) as (a1 & σ1 & H1).
    destruct (IH a1 (log ++ [v]) σ1) as (a2 & σ2 & H2).
    exists a2, σ2. cbn [for_range_break].
    unfold mbind at 1, M_bind at 1, logging at 1. cbn [fst snd].
    unfold mbind at 1, M_bind at 1. rewrite H1. cbn.
    unfold mret, M_ret. rewrite H2. by rewrite <- app_assoc.
Qed.

(** C8 (Range).  On a set that is not empty, a visitor that returns false
    when it is first called is called on one element of the set and on
    nothing else, whatever the size of the set.  A visitor that always
    returns true and does not change the set it visits is called once on
    each element of the set. *)
Theorem Range_early_stop {A} σ s :
  (∀ (f : T → A → M (mem T) (bool * A)) (a : A),
     maps.Len s σ ≠ Some (0, σ) →
     (∀ v σ0, ∃ a' σ1, f v a σ0 = Some ((false, a'), σ1)) →
     ∃ v a' σ',
       maps.Range s (logging f) (a, []) σ = Some ((a', [v]), σ')
       ∧ maps.Has s v σ = Some (true, σ))
  ∧ (∀ (f : T → A → M (mem T) (bool * A)) (a : A),
       (∀ v a0 σ0, ∃ a' σ1,
          f v a0 σ0 = Some ((true, a'), σ1) ∧ get σ1 s = get σ0 s) →
       ∃ a' log σ',
         maps.Range s (logging f) (a, []) σ = Some ((a', log), σ')
         ∧ NoDup log
         ∧ (∀ v, v ∈ log ↔ maps.Has s v σ = Some (true, σ))
         ∧ maps.Len s σ = Some (Z.of_nat (length log), σ)).
Proof.
  assert (Hhas : ∀ v, v ∈ range_order (tick σ) (get σ s)
                      ↔ maps.Has s v σ = Some (true, σ)).
  { intros v. rewrite elem_of_range_order, Has_run. split.
    - intros Hv. by rewrite bool_decide_eq_true_2.
    - intros [= Hv]. by apply bool_decide_eq_true in Hv. }
  split.
  - intros f a Hlen Hf. rewrite Range_run.
    destruct (range_order (tick σ) (get σ s)) as [|v vs] eqn:Hvs.
    + exfalso. apply Hlen. rewrite Len_run.
      by rewrite <- (length_range_order (tick σ) (get σ s)), Hvs.
    + destruct (Hf v (tock σ)) as (a' & σ1 & H1). exists v, a', σ1. split.
      * cbn [for_range_break].
        unfold mbind at 1, M_bind at 1, logging at 1. cbn [fst snd].
        unfold mbind at 1, M_bind at 1. by rewrite H1.
      * apply Hhas, list_elem_of_here.
  - intros f a Hf. rewrite Range_run.
    assert (Hf' : ∀ v a0 σ0, ∃ a' σ1, f v a0 σ0 = Some ((true, a'), σ1)).
    { intros v a0 σ0. destruct (Hf v a0 σ0) as (a' & σ1 & Hr & _). eauto. }
    destruct (logging_all f (range_order (tick σ) (get σ s)) Hf' a [] (tock σ))
      as (a' & σ' & Hrun).
    exists a', (range_order (tick σ) (get σ s)), σ'.
    split_and!; [exact Hrun | apply NoDup_range_order | exact Hhas |].
    by rewrite Len_run, (length_range_order (tick σ) (get σ s)).
Qed.
End Range_claims.

Section refinement_claims.
Context `{Countable T} `{!RangeOrder T}.
Implicit Types (σ : mem T) (s other : SetRef) (l : loc) (m : gmap T ()) (v : T).










End refinement_claims.

Section equivalence_claims.
Context `{Countable T} `{!RangeOrder T}.
Implicit Types (σ : mem T) (s other : SetRef) (l : loc) (m : gmap T ()) (v : T).

Lemma same_members_eq σ1 s1 σ2 s2 :
  same_members σ1 s1 σ2 s2 → get σ1 s1 = get σ2 s2.
Proof. intros Hs. by apply unit_map_eq, same_members_dom. Qed.

Lemma Add_valid σ l v :
  is_Some (heap σ !! l) →
  ∃ σ', maps.Add (Some l) v σ = Some (bool_decide (v ∉ dom (get σ (Some l))), σ')
        ∧ get σ' (Some l) = <[v := ()]> (get σ (Some l)).
Proof.
  intros [m Hm].
  assert (Hget : get σ (Some l) = m) by (unfold get; simpl; by rewrite Hm).
  rewrite Hget. eexists. split; [by apply Add_run | apply get_put_eq].
Qed.

Lemma Remove_get σ s v :
  ∃ σ', maps.Remove s v σ = Some (bool_decide (v ∈ dom (get σ s)), σ')
        ∧ get σ' s = delete v (get σ s).
Proof.
  eexists. split; [apply Remove_run|].
  destruct s as [l|]; unfold get; simpl.
  - rewrite lookup_alter_eq. by destruct (heap σ !! l).
  - by rewrite delete_empty.
Qed.

(** C10 (the two packages agree).  On sets with the same elements, [typ.Set]
    and [maps.Set] answer the same: [Has] is the same; [Set] and [Add], on
    sets that are not nil, and [Unset] and [Remove] return the same boolean
    and leave the same elements; [Clone], [Intersect], [Union], [SetDiff]
    and [SymDiff] return sets with the same elements; the slices of [Slice]
    hold the same values. *)
Theorem typ_maps_equivalent σ1 σ2 (s1 o1 s2 o2 : SetRef) :
  valid σ1 s1 → valid σ1 o1 → valid σ2 s2 → valid σ2 o2 →
  same_members σ1 s1 σ2 s2 → same_members σ1 o1 σ2 o2 →
  (∀ v, fst <$> typ.Has s1 v σ1 = fst <$> maps.Has s2 v σ2)
  ∧ (∀ v, s1 ≠ nil → s2 ≠ nil →
       same_effect (typ.Set_ s1 v σ1) s1 (maps.Add s2 v σ2) s2)
  ∧ (∀ v, same_effect (typ.Unset s1 v σ1) s1 (maps.Remove s2 v σ2) s2)
  ∧ same_set (typ.Clone s1 σ1) (maps.Clone s2 σ2)
  ∧ (∃ vs1 σ1' vs2 σ2',
       typ.Slice s1 σ1 = Some (vs1, σ1')
       ∧ maps.Slice s2 σ2 = Some (vs2, σ2')
       ∧ vs1 ≡ₚ vs2)
  ∧ same_set (typ.Intersect s1 o1 σ1) (maps.Intersect s2 o2 σ2)
  ∧ same_set (typ.Union s1 o1 σ1) (maps.Union s2 o2 σ2)
  ∧ same_set (typ.SetDiff s1 o1 σ1) (maps.SetDiff s2 o2 σ2)
  ∧ same_set (typ.SymDiff s1 o1 σ1) (maps.SymDiff s2 o2 σ2).
Proof.
  intros Hs1 Ho1 Hs2 Ho2 Hs Ho.
  pose proof (same_members_eq _ _ _ _ Hs) as Es.
  pose proof (same_members_eq _ _ _ _ Ho) as Eo.
  split_and!.
  - intros v. rewrite typ_Has_eq. apply Hs.
  - intros v Hn1 Hn2. destruct s1 as [l1|], s2 as [l2|]; try done.
    destruct (Add_valid σ1 l1 v Hs1) as (σ1' & Hr1 & Hg1).
    destruct (Add_valid σ2 l2 v Hs2) as (σ2' & Hr2 & Hg2).
    rewrite typ_Set_eq. eexists _, σ1', σ2'.
    split_and!; [exact Hr1 | by rewrite Es | apply same_members_get; congruence].
  - intros v.
    destruct (Remove_get σ1 s1 v) as (σ1' & Hr1 & Hg1).
    destruct (Remove_get σ2 s2 v) as (σ2' & Hr2 & Hg2).
    rewrite typ_Unset_eq. eexists _, σ1', σ2'.
    split_and!; [exact Hr1 | by rewrite Es | apply same_members_get; congruence].
  - rewrite typ_Clone_eq. eapply same_set_get; [apply Clone_run..|].
    by rewrite !get_tock_put_next.
  - rewrite typ_Slice_eq. eexists _, _, _, _.
    split_and!; [apply Slice_run..|].
    by rewrite !range_order_perm, Es.
  - rewrite typ_Intersect_eq. eapply same_set_get; [by apply Intersect_run..|].
    by rewrite !get_tock_put_next, Es, Eo.
  - eapply same_set_get; [by apply typ_Union_run | by apply Union_run |].
    by rewrite !get_tock2_put_next, Es, Eo.
  - rewrite typ_SetDiff_eq. eapply same_set_get; [by apply SetDiff_run..|].
    by rewrite !get_tock_put_next, Es, Eo.
  - eapply same_set_get; [by apply typ_SymDiff_run | by apply SymDiff_run |].
    by rewrite !get_tock2_put_next, Es, Eo.
Qed.
End equivalence_claims.

(** ** The code run on examples *)

Example scenario_keys_order :
  fst <$> scenario (RangeOrder0 := keys_order) store_0
  = Some ([3], [5; 3; 4; 2; 1], [2; 1], [5; 4], [5; 4; 2; 1]).
Proof. by vm_compute. Qed.

Example scenario_alternating_order :
  fst <$> scenario (RangeOrder0 := alternating_order) store_0
  = Some ([3], [5; 3; 4; 2; 1], [1; 2], [5; 4], [1; 2; 4; 5]).
Proof. by vm_compute. Qed.

Example Add_nil_panics :
  maps.Add nil 1 store_0 = None.
Proof. reflexivity. Qed.

Example Range_stops_at_once :
  fst <$> maps.Range (RangeOrder0 := keys_order) (Some 1%positive)
            (logging stop_at_once) ((), []) store_ab
  = Some ((), [3]).
Proof. by vm_compute. Qed.

Example Range_never_stops :
  fst <$> maps.Range (RangeOrder0 := keys_order) (Some 1%positive)
            (logging never_stop) ((), []) store_ab
  = Some ((), [3; 2; 1]).
Proof. by vm_compute. Qed.

(** ** The theorems at the store [store_ab] *)

Section witnesses.
Local Existing Instance keys_order.

Lemma valid_store_ab :
  valid store_ab (Some 1%positive) ∧ valid store_ab (Some 2%positive).
Proof. split; vm_compute; eauto. Defined.


Lemma algebra_commutative_witness :
  valid store_ab (Some 1%positive) ∧ valid store_ab (Some 2%positive)
  ∧ same_set (maps.Union (Some 1%positive) (Some 2%positive) store_ab)
             (maps.Union (Some 2%positive) (Some 1%positive) store_ab)
  ∧ same_set (maps.Intersect (Some 1%positive) (Some 2%positive) store_ab)
             (maps.Intersect (Some 2%positive) (Some 1%positive) store_ab)
  ∧ same_set (maps.SymDiff (Some 1%positive) (Some 2%positive) store_ab)
             (maps.SymDiff (Some 2%positive) (Some 1%positive) store_ab).
Proof.
  destruct valid_store_ab as [Ha Hb]. split; [exact Ha|]. split; [exact Hb|].
  exact (algebra_commutative store_ab store_ab _ _ Ha Hb Ha Hb eq_refl eq_refl).
Defined.

Lemma SetDiff_correct_witness :
  valid store_ab (Some 1%positive) ∧ valid store_ab (Some 2%positive)
  ∧ ∃ d σd e σe,
      maps.SetDiff (Some 1%positive) (Some 2%positive) store_ab = Some (d, σd)
      ∧ typ.SetDiff (Some 1%positive) (Some 2%positive) store_ab = Some (d, σd)
      ∧ maps.SetDiff (Some 2%positive) (Some 1%positive) store_ab = Some (e, σe)
      ∧ (∀ v, ∃ ha hb,
           maps.Has (Some 1%positive) v store_ab = Some (ha, store_ab)
           ∧ maps.Has (Some 2%positive) v store_ab = Some (hb, store_ab)
           ∧ maps.Has d v σd = Some (ha && negb hb, σd)
           ∧ maps.Has e v σe = Some (hb && negb ha, σe))
      ∧ (dom (get store_ab (Some 1%positive)) ∖ dom (get store_ab (Some 2%positive))
         ≠ dom (get store_ab (Some 2%positive)) ∖ dom (get store_ab (Some 1%positive)) →
         ¬ same_members σd d σe e).
Proof.
  destruct valid_store_ab as [Ha Hb]. split; [exact Ha|]. split; [exact Hb|].
  exact (proj1 SetDiff_correct Z _ _ _ store_ab _ _ Ha Hb).
Defined.

Lemma new_sets_and_clones_witness :
  valid store_ab (Some 1%positive) ∧ valid store_ab (Some 2%positive)
  ∧ returns_new_set store_ab (maps.Union (Some 1%positive) (Some 2%positive) store_ab)
  ∧ returns_new_set store_ab (maps.Clone (Some 1%positive) store_ab).
Proof.
  destruct valid_store_ab as [Ha Hb]. split; [exact Ha|]. split; [exact Hb|].
  pose proof (proj1 new_sets_and_clones Z _ _ _ store_ab _ _ Ha Hb)
    as (Hu & _ & _ & _ & Hc & _).
  exact (conj Hu Hc).
Defined.

Lemma Range_early_stop_witness :
  maps.Len (Some 1%positive) store_ab ≠ Some (0, store_ab)
  ∧ (∀ v σ0, ∃ a' σ1, stop_at_once v () σ0 = Some ((false, a'), σ1))
  ∧ ∃ v a' σ',
      maps.Range (Some 1%positive) (logging stop_at_once) ((), []) store_ab
      = Some ((a', [v]), σ')
      ∧ maps.Has (Some 1%positive) v store_ab = Some (true, store_ab).
Proof.
  assert (Hlen : maps.Len (Some 1%positive) store_ab ≠ Some (0, store_ab)).
  { vm_compute. intros [=]. }
  assert (Hf : ∀ (v : Z) (σ0 : mem Z),
            ∃ a' σ1, stop_at_once v () σ0 = Some ((false, a'), σ1)).
  { intros v σ0. exists (), σ0. reflexivity. }
  split; [exact Hlen|]. split; [exact Hf|].
  exact (proj1 (Range_early_stop store_ab (Some 1%positive)) stop_at_once () Hlen Hf).
Defined.

Lemma typ_maps_equivalent_witness :
  valid store_ab (Some 1%positive) ∧ valid store_ab (Some 2%positive)
  ∧ same_members store_ab (Some 1%positive) store_ab (Some 1%positive)
  ∧ same_set (typ.SymDiff (Some 1%positive) (Some 2%positive) store_ab)
             (maps.SymDiff (Some 1%positive) (Some 2%positive) store_ab)
  ∧ same_set (typ.Union (Some 1%positive) (Some 2%positive) store_ab)
             (maps.Union (Some 1%positive) (Some 2%positive) store_ab).
Proof.
  destruct valid_store_ab as [Ha Hb]. split; [exact Ha|]. split; [exact Hb|].
  assert (Hsa : same_members store_ab (Some 1%positive) store_ab (Some 1%positive))
    by (by apply same_members_get).
  assert (Hsb : same_members store_ab (Some 2%positive) store_ab (Some 2%positive))
    by (by apply same_members_get).
  split; [exact Hsa|].
  pose proof (typ_maps_equivalent store_ab store_ab _ _ _ _ Ha Hb Ha Hb Hsa Hsb)
    as (_ & _ & _ & _ & _ & _ & Hu & _ & Hy).
  exact (conj Hy Hu).
Defined.
End witnesses.

(** * More properties of the two packages *)

(** ** [Add] and [Remove] *)

Section add_remove.
Context `{Countable T} `{!RangeOrder T}.
Implicit Types (σ : mem T) (s : SetRef) (l : loc) (m : gmap T ()) (v w : T).

Lemma Remove_other σ s s' v σ' b :
  maps.Remove s v σ = Some (b, σ') → s' ≠ s → get σ' s' = get σ s'.
Proof.
  rewrite Remove_run. intros [= _ <-] Hne. destruct s as [l|]; [|done].
  destruct s' as [l'|]; [|done]. unfold get. simpl.
  rewrite lookup_alter_ne; [done | congruence].
Qed.

Lemma Remove_absent σ s v :
  v ∉ dom (get σ s) → maps.Remove s v σ = Some (false, σ).
Proof.
  intros Hv. unfold maps.Remove. mrun Has_run.
  by rewrite bool_decide_eq_false_2.
Qed.

(** X1.  [Remove(v)] (and [Unset(v)] of package [typ]) returns whether [v] was in
    the set, also on the nil set; afterwards [v] is not in the set, the
    other values are in it as before, [Len] is one less exactly when true
    was returned, a second [Remove(v)] returns false and changes nothing,
    and no other set of the store is touched. *)
Theorem Remove_removes σ s v :
  ∃ has n σ',
    maps.Has s v σ = Some (has, σ)
    ∧ maps.Len s σ = Some (n, σ)
    ∧ maps.Remove s v σ = Some (has, σ')
    ∧ typ.Unset s v σ = Some (has, σ')
    ∧ (has = false → σ' = σ)
    ∧ maps.Has s v σ' = Some (false, σ')
    ∧ (∀ w, w ≠ v → fst <$> maps.Has s w σ' = fst <$> maps.Has s w σ)
    ∧ maps.Len s σ' = Some (n - (if has then 1 else 0), σ')
    ∧ maps.Remove s v σ' = Some (false, σ')
    ∧ (∀ s', s' ≠ s → get σ' s' = get σ s').
Proof.
  destruct (Remove_get σ s v) as (σ' & Hrun & Hget).
  exists (bool_decide (v ∈ dom (get σ s))), (Z.of_nat (size (get σ s))), σ'.
  assert (Hnot : v ∉ dom (get σ' s)).
  { rewrite Hget, dom_delete_L. set_solver. }
  split_and!.
  - apply Has_run.
  - apply Len_run.
  - exact Hrun.
  - by rewrite typ_Unset_eq.
  - intros Hf%bool_decide_eq_false. rewrite Remove_absent in Hrun by done.
    by injection Hrun as _ <-.
  - by rewrite Has_run, bool_decide_eq_false_2.
  - intros w Hw. rewrite !Has_run. simpl. f_equal. apply bool_decide_ext.
    rewrite Hget, dom_delete_L. set_solver.
  - rewrite Len_run, Hget. do 2 f_equal.
    destruct (decide (v ∈ dom (get σ s))) as [Hin|Hin].
    + rewrite bool_decide_eq_true_2 by done.
      apply elem_of_dom in Hin.
      pose proof (map_size_delete_Some v (get σ s) Hin) as Hsz.
      assert (size (get σ s) ≠ 0%nat).
      { intros Hz%map_size_empty_inv. rewrite Hz, lookup_empty in Hin.
        by destruct Hin. }
      lia.
    + rewrite bool_decide_eq_false_2 by done.
      rewrite delete_id by (by apply not_elem_of_dom). lia.
  - by apply Remove_absent.
  - intros s' Hne. by eapply Remove_other.
Qed.


End add_remove.

(** ** [AddSet] and [RemoveSet] *)

Section bulk.
Context `{Countable T} `{!RangeOrder T}.
Implicit Types (σ : mem T) (s set : SetRef) (l : loc) (m : gmap T ()) (v w : T).










End bulk.

(** ** [String] *)

Section rendering.
Context `{Countable T} `{!RangeOrder T}.
Implicit Types (σ : mem T) (s : SetRef) (v : T) (sb : string).

Lemma append_cons x (a b : string) : String x a +:+ b = String x (a +:+ b).
Proof. reflexivity. Qed.

Lemma append_assoc (a b c : string) : (a +:+ b) +:+ c = a +:+ (b +:+ c).
Proof. induction a as [|x a IH]; [done|]. rewrite !append_cons. by f_equal. Qed.

Lemma append_nil_r (a : string) : a +:+ EmptyString = a.
Proof. induction a as [|x a IH]; [done|]. rewrite append_cons. by f_equal. Qed.

(** What the loop of [String] writes once a first element was written. *)
Lemma String_loop_delim (fprint : T → string) (vs : list T) sb σ :
  for_range vs (λ v st,
      let st' := if st.2 : bool then (st.1 +:+ " ", st.2) else (st.1, true) in
      mret (st'.1 +:+ fprint v, st'.2)) (sb, true) σ
  = Some ((sb +:+ match vs with
                  | [] => EmptyString
                  | _ => " " +:+ String.concat " " (fprint <$> vs)
                  end, true), σ).
Proof.
  revert sb. induction vs as [|v vs IH]; intros sb.
  - simpl. by rewrite append_nil_r.
  - cbn [for_range]. unfold mbind at 1, M_bind at 1, mret at 1, M_ret at 1.
    cbn [fst snd]. rewrite IH. do 3 f_equal.
    rewrite !append_assoc. do 2 f_equal. destruct vs as [|w vs].
    + cbn [fmap list_fmap String.concat]. apply append_nil_r.
    + reflexivity.
Qed.

Lemma String_loop (fprint : T → string) (vs : list T) sb σ :
  ∃ flag,
    for_range vs (λ v st,
        let st' := if st.2 : bool then (st.1 +:+ " ", st.2) else (st.1, true) in
        mret (st'.1 +:+ fprint v, st'.2)) (sb, false) σ
    = Some ((sb +:+ String.concat " " (fprint <$> vs), flag), σ).
Proof.
  destruct vs as [|v vs].
  - exists false. simpl. by rewrite append_nil_r.
  - exists true. cbn [for_range].
    unfold mbind at 1, M_bind at 1, mret at 1, M_ret at 1. cbn [fst snd].
    rewrite String_loop_delim. do 3 f_equal. rewrite append_assoc. f_equal.
    destruct vs as [|w vs]; [|reflexivity].
    cbn [fmap list_fmap String.concat]. apply append_nil_r.
Qed.

Lemma range_order_empty n : range_order n (∅ : gmap T ()) = [].
Proof.
  apply length_zero_iff_nil. by rewrite length_range_order, map_size_empty.
Qed.

(** X6.  [String] writes an opening brace, what [fmt.Fprint] writes for each
    element in the order of the loop, with one space between two elements
    and none before the first or after the last, and a closing brace.  The
    empty set and the nil set give ["{}"].  The two packages write the
    same. *)
Theorem String_renders (fprint : T → string) σ s :
  maps.String fprint s σ
  = Some ("{" +:+ String.concat " " (fprint <$> range_order (tick σ) (get σ s))
              +:+ "}", tock σ)
  ∧ typ.String fprint s σ = maps.String fprint s σ
  ∧ (get σ s = ∅ → maps.String fprint s σ = Some ("{}", tock σ))
  ∧ maps.String fprint nil σ = Some ("{}", tock σ).
Proof.
  assert (Hrun : ∀ s', maps.String fprint s' σ
    = Some ("{" +:+ String.concat " " (fprint <$> range_order (tick σ) (get σ s'))
                +:+ "}", tock σ)).
  { intros s'. unfold maps.String. mrun range_keys_run.
    destruct (String_loop fprint (range_order (tick σ) (get σ s')) "{" (tock σ))
      as [flag Hloop].
    mrun Hloop. cbn [fst]. unfold mret, M_ret. by rewrite append_assoc. }
  split_and!.
  - apply Hrun.
  - reflexivity.
  - intros Hs. by rewrite Hrun, Hs, range_order_empty.
  - rewrite Hrun. change (get σ nil) with (∅ : gmap T ()).
    by rewrite range_order_empty.
Qed.
End rendering.

(** ** The nil set *)

Section nil_sets.
Context `{Countable T} `{!RangeOrder T}.
Implicit Types (σ : mem T) (s set : SetRef) (l : loc) (m : gmap T ()) (v w : T).

Lemma RemoveSet_nil_loop (vs : list T) (n : Z) σ :
  for_range_break vs (λ value removed,
      ok ← maps.Remove nil value;
      mret (true, if ok : bool then int_incr removed else removed)) n σ
  = Some (n, σ).
Proof. induction vs as [|v vs IH]; [done|]. cbn [for_range_break]. exact IH. Qed.

(** X7.  The nil set reads as an empty set: [Has] is false, [Len] is 0, [Slice]
    is empty, [Remove] and [RemoveSet] remove nothing.  It cannot be written
    to: [Add] (and [Set] of package [typ]) panics, and [AddSet] panics
    exactly when the other set has an element.  [Clone] of the nil set is
    not nil: it is a new empty set to which values can be added. *)
Theorem nil_set σ v set :
  maps.Has nil v σ = Some (false, σ)
  ∧ maps.Len nil σ = Some (0, σ)
  ∧ maps.Slice nil σ = Some ([], tock σ)
  ∧ maps.Remove nil v σ = Some (false, σ)
  ∧ maps.RemoveSet nil set σ = Some (0, tock σ)
  ∧ maps.Add nil v σ = None
  ∧ typ.Set_ nil v σ = None
  ∧ (get σ set ≠ ∅ → maps.AddSet nil set σ = None)
  ∧ (get σ set = ∅ → maps.AddSet nil set σ = Some (0, tock σ))
  ∧ ∃ c σ' σ'',
      maps.Clone nil σ = Some (Some c, σ')
      ∧ maps.Len (Some c) σ' = Some (0, σ')
      ∧ maps.Add (Some c) v σ' = Some (true, σ'').
Proof.
  split_and!; try done.
  - rewrite Slice_run. change (get σ nil) with (∅ : gmap T ()).
    by rewrite range_order_empty.
  - unfold maps.RemoveSet. rewrite Range_run. apply RemoveSet_nil_loop.
  - intros Hne. unfold maps.AddSet. rewrite Range_run.
    destruct (range_order (tick σ) (get σ set)) as [|w vs] eqn:Hvs; [|done].
    exfalso. apply Hne, map_size_empty_inv.
    by rewrite <- (length_range_order (tick σ) (get σ set)), Hvs.
  - intros He. unfold maps.AddSet. rewrite Range_run, He.
    by rewrite range_order_empty.
  - eexists _, _, _. split_and!; [apply Clone_run | |].
    + rewrite Len_run, get_tock_put_next. done.
    + change (tock (put σ (next σ) (get σ nil)))
        with (put (tock σ) (next σ) (∅ : gmap T ())).
      rewrite Add_put. by rewrite dom_empty_L, bool_decide_eq_true_2 by set_solver.
Qed.
End nil_sets.

(** ** The constructors *)

Section constructors.
Context `{Countable T} `{!RangeOrder T}.
Implicit Types (σ : mem T) (s : SetRef) (l : loc) (v : T).

Lemma for_range_fmap {S E F A} (f : E → F) (xs : list E) (body : F → A → M S A)
    (a : A) (τ : S) :
  for_range (f <$> xs) body a τ = for_range xs (λ x, body (f x)) a τ.
Proof.
  revert a τ. induction xs as [|x xs IH]; intros a τ; [done|].
  cbn [fmap list_fmap for_range]. unfold mbind, M_bind.
  destruct (body (f x) a τ) as [[a' τ']|]; [apply IH | done].
Qed.

Lemma size_list_to_set_le (vs : list T) :
  (size (list_to_set (C := gset T) vs) ≤ length vs)%nat.
Proof.
  induction vs as [|v vs IH].
  - change (list_to_set (C := gset T) []) with (∅ : gset T).
    rewrite size_empty. simpl. lia.
  - change (list_to_set (C := gset T) (v :: vs))
      with ({[v]} ∪ list_to_set (C := gset T) vs).
    cbn [length]. rewrite size_union_alt, size_singleton.
    assert (Hsub : list_to_set vs ∖ {[v]} ⊆ list_to_set (C := gset T) vs)
      by set_solver.
    apply subseteq_size in Hsub. lia.
Qed.

End constructors.

Section map_constructors.
Context `{Countable K}.

Lemma list_to_set_entry_keys {V} `{!EntryOrder K V} n (m : gmap K V) :
  list_to_set (C := gset K) (entry_order n m).*1 = dom m.
Proof.
  apply set_eq. intros k.
  rewrite elem_of_list_to_set, (entry_order_perm n m), elem_of_dom, list_elem_of_fmap.
  split.
  - intros [[k' x] [-> Hk]]. apply elem_of_map_to_list in Hk. by eexists.
  - intros [x Hx]. exists (k, x). by rewrite elem_of_map_to_list.
Qed.

Lemma entry_loop `{Countable T} {V} (f : K * V → T) (kvs : list (K * V)) (σ : mem T) l :
  for_range kvs (λ kv _, maps.Add (Some l) (f kv);; mret ()) () (put σ l ∅)
  = Some ((), put σ l (add_keys (f <$> kvs) ∅)).
Proof.
  rewrite <- (add_loop σ l (f <$> kvs) ∅). symmetry.
  apply (for_range_fmap f kvs (λ v _, maps.Add (Some l) v;; mret ())).
Qed.

(** X9.  A set made from the keys of a map is a new set that holds exactly the
    keys of the map, as many as the map has entries; the sets of the store
    are left as they were. *)
Theorem NewSetFromKeys_holds_keys `{!RangeOrder K} {V} `{!EntryOrder K V}
    (m : gmap K V) (σ : mem K) :
  ∃ l σ',
    maps.NewSetFromKeys m σ = Some (Some l, σ')
    ∧ heap σ !! l = None
    ∧ (∀ k, maps.Has (Some l) k σ' = Some (bool_decide (is_Some (m !! k)), σ'))
    ∧ maps.Len (Some l) σ' = Some (Z.of_nat (size m), σ')
    ∧ (∀ s, valid σ s → get σ' s = get σ s).
Proof.
  assert (Hrun : maps.NewSetFromKeys m σ
                 = Some (Some (next σ),
                         put (tock σ) (next σ)
                           (add_keys (entry_order (tick σ) m).*1 ∅))).
  { unfold maps.NewSetFromKeys. mrun make_run.
    unfold mbind at 1, M_bind at 1, range_entries. cbn [tick put].
    change (tock (put σ (next σ) ∅)) with (put (tock σ) (next σ) (∅ : gmap K ())).
    by mrun (entry_loop (T := K) fst). }
  assert (Hdom : dom (add_keys (entry_order (tick σ) m).*1 (∅ : gmap K ())) = dom m).
  { by rewrite dom_add_keys, dom_empty_L, (left_id_L ∅ (∪)), list_to_set_entry_keys. }
  eexists _, _. split; [exact Hrun|]. split_and!.
  - apply next_fresh.
  - intros k. rewrite Has_run, get_put_eq, Hdom. do 2 f_equal.
    apply bool_decide_ext, elem_of_dom.
  - by rewrite Len_run, get_put_eq, <- size_dom, Hdom, size_dom.
  - intros s Hs. rewrite get_put_ne by (by apply valid_ne_next). done.
Qed.

(** X10.  A set made from the values of a map is a new set that holds exactly the
    values some key of the map has.  Equal values collapse: [Len] is at most
    the number of entries of the map, and is that number when no two keys
    have the same value. *)
Theorem NewSetFromValues_holds_values `{Countable V} `{!RangeOrder V}
    `{!EntryOrder K V} (m : gmap K V) (σ : mem V) :
  ∃ l n σ',
    maps.NewSetFromValues m σ = Some (Some l, σ')
    ∧ heap σ !! l = None
    ∧ (∀ v, ∃ has,
         maps.Has (Some l) v σ' = Some (has, σ')
         ∧ (has = true ↔ ∃ k, m !! k = Some v))
    ∧ maps.Len (Some l) σ' = Some (n, σ')
    ∧ 0 ≤ n ≤ Z.of_nat (size m)
    ∧ ((∀ k1 k2 v, m !! k1 = Some v → m !! k2 = Some v → k1 = k2) →
       n = Z.of_nat (size m))
    ∧ (∀ s, valid σ s → get σ' s = get σ s).
Proof.
  set (vs := (entry_order (tick σ) m).*2).
  assert (Hrun : maps.NewSetFromValues m σ
                 = Some (Some (next σ), put (tock σ) (next σ) (add_keys vs ∅))).
  { unfold maps.NewSetFromValues. mrun make_run.
    unfold mbind at 1, M_bind at 1, range_entries. cbn [tick put].
    change (tock (put σ (next σ) ∅)) with (put (tock σ) (next σ) (∅ : gmap V ())).
    by mrun (entry_loop (T := V) snd). }
  assert (Hdom : dom (add_keys vs (∅ : gmap V ())) = list_to_set vs).
  { by rewrite dom_add_keys, dom_empty_L, (left_id_L ∅ (∪)). }
  assert (Hlen : length vs = size m).
  { unfold vs. by rewrite length_fmap, (entry_order_perm (tick σ) m), length_map_to_list. }
  assert (Hin : ∀ v, v ∈ vs ↔ ∃ k, m !! k = Some v).
  { intros v. unfold vs.
    rewrite (entry_order_perm (tick σ) m), list_elem_of_fmap. split.
    - intros [[k x] [-> Hk]]. apply elem_of_map_to_list in Hk. by exists k.
    - intros [k Hk]. exists (k, v). by rewrite elem_of_map_to_list. }
  eexists _, (Z.of_nat (size (list_to_set (C := gset V) vs))), _.
  split; [exact Hrun|]. split_and!.
  - apply next_fresh.
  - intros v. eexists. split; [apply Has_run|].
    by rewrite bool_decide_eq_true, get_put_eq, Hdom, elem_of_list_to_set.
  - by rewrite Len_run, get_put_eq, <- size_dom, Hdom.
  - lia.
  - pose proof (size_list_to_set_le vs). lia.
  - intros Hinj. do 1 f_equal. rewrite <- Hlen. apply size_list_to_set.
    unfold vs. rewrite (entry_order_perm (tick σ) m).
    apply NoDup_fmap_2_strong; [|apply NoDup_map_to_list].
    intros [k1 v1] [k2 v2] H1%elem_of_map_to_list H2%elem_of_map_to_list Hv.
    simpl in Hv. subst v2. f_equal. by eapply Hinj.
  - intros s Hs. rewrite get_put_ne by (by apply valid_ne_next). done.
Qed.
End map_constructors.

(** ** The algebra of package [maps], value by value *)

Section algebra_facts.
Context `{Countable T} `{!RangeOrder T}.
Implicit Types (σ : mem T) (s other a b c : SetRef) (l : loc) (m : gmap T ()) (v : T).

(** One call of the algebra on sets of the store: it returns a set of the
    new store with the elements [X], and the sets of the old store are sets
    of the new one, with their elements. *)
Lemma algebra_step σ σ' (x : option (SetRef * mem T)) (R : gmap T ()) (X : gset T) :
  x = Some (Some (next σ), σ') →
  heap σ' = <[next σ := R]> (heap σ) →
  dom R = X →
  ∃ r σ1,
    x = Some (r, σ1) ∧ valid σ1 r ∧ dom (get σ1 r) = X
    ∧ ∀ s, valid σ s → valid σ1 s ∧ get σ1 s = get σ s.
Proof.
  intros -> Hheap <-. exists (Some (next σ)), σ'. split_and!; [done | | |].
  - simpl. rewrite Hheap, lookup_insert_eq. by eexists.
  - unfold get. simpl. by rewrite Hheap, lookup_insert_eq.
  - intros s Hs.
    destruct (returns_new_set_intro σ σ' (Some (Some (next σ), σ')) R eq_refl Hheap)
      as (l & σ2 & [= <- <-] & _ & Hall).
    by destruct (Hall s Hs) as (_ & ? & ?).
Qed.

Lemma Union_step σ a b :
  valid σ a → valid σ b →
  ∃ r σ1,
    maps.Union a b σ = Some (r, σ1) ∧ valid σ1 r
    ∧ dom (get σ1 r) = dom (get σ a) ∪ dom (get σ b)
    ∧ ∀ s, valid σ s → valid σ1 s ∧ get σ1 s = get σ s.
Proof.
  intros Ha Hb. eapply algebra_step; [by apply Union_run | done |].
  apply dom_union_L.
Qed.

Lemma Intersect_step σ a b :
  valid σ a → valid σ b →
  ∃ r σ1,
    maps.Intersect a b σ = Some (r, σ1) ∧ valid σ1 r
    ∧ dom (get σ1 r) = dom (get σ a) ∩ dom (get σ b)
    ∧ ∀ s, valid σ s → valid σ1 s ∧ get σ1 s = get σ s.
Proof.
  intros Ha Hb. eapply algebra_step; [by apply Intersect_run | done |].
  apply dom_intersection_L.
Qed.

Lemma SetDiff_step σ a b :
  valid σ a → valid σ b →
  ∃ r σ1,
    maps.SetDiff a b σ = Some (r, σ1) ∧ valid σ1 r
    ∧ dom (get σ1 r) = dom (get σ a) ∖ dom (get σ b)
    ∧ ∀ s, valid σ s → valid σ1 s ∧ get σ1 s = get σ s.
Proof.
  intros Ha Hb. eapply algebra_step; [by apply SetDiff_run | done |].
  apply dom_difference_L.
Qed.

Lemma SymDiff_step σ a b :
  valid σ a → valid σ b →
  ∃ r σ1,
    maps.SymDiff a b σ = Some (r, σ1) ∧ valid σ1 r
    ∧ dom (get σ1 r)
      = (dom (get σ a) ∖ dom (get σ b)) ∪ (dom (get σ b) ∖ dom (get σ a))
    ∧ ∀ s, valid σ s → valid σ1 s ∧ get σ1 s = get σ s.
Proof.
  intros Ha Hb. eapply algebra_step; [by apply SymDiff_run | done |].
  by rewrite dom_union_L, !dom_difference_L.
Qed.

Lemma Has_dom σ s v : maps.Has s v σ = Some (bool_decide (v ∈ dom (get σ s)), σ).
Proof. apply Has_run. Qed.

Lemma same_members_of_dom σ1 s1 σ2 s2 :
  dom (get σ1 s1) = dom (get σ2 s2) → same_members σ1 s1 σ2 s2.
Proof. intros Hd. by apply same_members_get, unit_map_eq. Qed.

(** X11.  [Union], [Intersect] and [SymDiff] value by value: the result of
    [Union] holds [v] when one of the operands does, that of [Intersect]
    when both do, that of [SymDiff] when exactly one does.  The same holds
    for the methods of package [typ]. *)
Theorem algebra_pointwise σ a b :
  valid σ a → valid σ b →
  ∃ u σu i σi y σy,
    maps.Union a b σ = Some (u, σu)
    ∧ maps.Intersect a b σ = Some (i, σi)
    ∧ maps.SymDiff a b σ = Some (y, σy)
    ∧ typ.Union a b σ = Some (u, σu)
    ∧ typ.Intersect a b σ = Some (i, σi)
    ∧ typ.SymDiff a b σ = Some (y, σy)
    ∧ ∀ v, ∃ ha hb,
        maps.Has a v σ = Some (ha, σ)
        ∧ maps.Has b v σ = Some (hb, σ)
        ∧ maps.Has u v σu = Some (ha || hb, σu)
        ∧ maps.Has i v σi = Some (ha && hb, σi)
        ∧ maps.Has y v σy = Some (xorb ha hb, σy).
Proof.
  intros Ha Hb. eexists _, _, _, _, _, _.
  split_and!; [by apply Union_run | by apply Intersect_run | by apply SymDiff_run
              | by apply typ_Union_run
              | rewrite typ_Intersect_eq; by apply Intersect_run
              | by apply typ_SymDiff_run |].
  intros v. eexists _, _. split_and!; [apply Has_run..| | |].
  - rewrite Has_run, get_tock2_put_next, dom_union_L. do 2 f_equal.
    rewrite <- bool_decide_or. apply bool_decide_ext. set_solver.
  - rewrite Has_run, get_tock_put_next, dom_intersection_L. do 2 f_equal.
    rewrite <- bool_decide_and. apply bool_decide_ext. set_solver.
  - rewrite Has_run, get_tock2_put_next, dom_union_L, !dom_difference_L.
    do 2 f_equal.
    destruct (decide (v ∈ dom (get σ a))), (decide (v ∈ dom (get σ b)));
      rewrite ?(bool_decide_eq_true_2 (v ∈ dom (get σ a))),
              ?(bool_decide_eq_false_2 (v ∈ dom (get σ a))),
              ?(bool_decide_eq_true_2 (v ∈ dom (get σ b))),
              ?(bool_decide_eq_false_2 (v ∈ dom (get σ b))) by done;
      simpl; [apply bool_decide_eq_false_2 | apply bool_decide_eq_true_2
             | apply bool_decide_eq_true_2 | apply bool_decide_eq_false_2];
      set_solver.
Qed.
End algebra_facts.

Section algebra_laws.
Context `{Countable T} `{!RangeOrder T}.
Implicit Types (σ : mem T) (s other a b c e : SetRef) (l : loc) (m : gmap T ()) (v : T).

Lemma Len_dom σ s : maps.Len s σ = Some (Z.of_nat (size (dom (get σ s))), σ).
Proof. by rewrite Len_run, size_dom. Qed.

Lemma Len_zero σ s : dom (get σ s) = ∅ → maps.Len s σ = Some (0, σ).
Proof. intros Hd. by rewrite Len_dom, Hd, size_empty. Qed.

(** X12.  An operand without elements, the nil set among them: [Union] and
    [SymDiff] with it and [SetDiff] by it give the elements of the other
    operand; [Intersect] with it and [SetDiff] of it give an empty set. *)
Theorem algebra_empty_operand σ a e :
  valid σ a → valid σ e → maps.Len e σ = Some (0, σ) →
  (∃ r σ', maps.Union a e σ = Some (r, σ') ∧ same_members σ' r σ a)
  ∧ (∃ r σ', maps.Union e a σ = Some (r, σ') ∧ same_members σ' r σ a)
  ∧ (∃ r σ', maps.SymDiff a e σ = Some (r, σ') ∧ same_members σ' r σ a)
  ∧ (∃ r σ', maps.SetDiff a e σ = Some (r, σ') ∧ same_members σ' r σ a)
  ∧ (∃ r σ', maps.Intersect a e σ = Some (r, σ') ∧ maps.Len r σ' = Some (0, σ'))
  ∧ (∃ r σ', maps.Intersect e a σ = Some (r, σ') ∧ maps.Len r σ' = Some (0, σ'))
  ∧ (∃ r σ', maps.SetDiff e a σ = Some (r, σ') ∧ maps.Len r σ' = Some (0, σ')).
Proof.
  intros Ha He Hlen. rewrite Len_dom in Hlen.
  assert (Hempty : dom (get σ e) = ∅).
  { injection Hlen as Hlen. apply leibniz_equiv, size_empty_inv. lia. }
  destruct (Union_step σ a e Ha He) as (r1 & σ1 & H1 & _ & D1 & _).
  destruct (Union_step σ e a He Ha) as (r2 & σ2 & H2 & _ & D2 & _).
  destruct (SymDiff_step σ a e Ha He) as (r3 & σ3 & H3 & _ & D3 & _).
  destruct (SetDiff_step σ a e Ha He) as (r4 & σ4 & H4 & _ & D4 & _).
  destruct (Intersect_step σ a e Ha He) as (r5 & σ5 & H5 & _ & D5 & _).
  destruct (Intersect_step σ e a He Ha) as (r6 & σ6 & H6 & _ & D6 & _).
  destruct (SetDiff_step σ e a He Ha) as (r7 & σ7 & H7 & _ & D7 & _).
  rewrite Hempty in *.
  split_and!; eexists _, _; (split; [eassumption|]);
    first [apply same_members_of_dom | apply Len_zero]; set_solver.
Qed.


Lemma Len_of_dom σ s (X : gset T) :
  dom (get σ s) = X → maps.Len s σ = Some (Z.of_nat (size X), σ).
Proof. intros <-. apply Len_dom. Qed.

Lemma sizes_of_two (A B : gset T) :
  size (A ∪ B) = (size A + size (B ∖ A))%nat
  ∧ size B = (size (B ∖ A) + size (A ∩ B))%nat
  ∧ size A = (size (A ∖ B) + size (A ∩ B))%nat
  ∧ size (A ∖ B ∪ B ∖ A) = (size (A ∖ B) + size (B ∖ A))%nat.
Proof.
  split_and!.
  - apply size_union_alt.
  - rewrite <- size_union by set_solver. f_equal. apply set_eq. intros v.
    rewrite elem_of_union, elem_of_difference, elem_of_intersection.
    destruct (decide (v ∈ A)); tauto.
  - rewrite <- size_union by set_solver. f_equal. apply set_eq. intros v.
    rewrite elem_of_union, elem_of_difference, elem_of_intersection.
    destruct (decide (v ∈ B)); tauto.
  - apply size_union. set_solver.
Qed.

(** X14.  The lengths of the results: [Len(A ∪ B) + Len(A ∩ B) = Len(A) + Len(B)],
    [Len(A ∖ B) = Len(A) - Len(A ∩ B)] and
    [Len(A △ B) = Len(A ∪ B) - Len(A ∩ B)]. *)
Theorem algebra_lengths σ a b :
  valid σ a → valid σ b →
  ∃ na nb u σu nu i σi ni d σd nd y σy ny,
    maps.Len a σ = Some (na, σ) ∧ maps.Len b σ = Some (nb, σ)
    ∧ maps.Union a b σ = Some (u, σu) ∧ maps.Len u σu = Some (nu, σu)
    ∧ maps.Intersect a b σ = Some (i, σi) ∧ maps.Len i σi = Some (ni, σi)
    ∧ maps.SetDiff a b σ = Some (d, σd) ∧ maps.Len d σd = Some (nd, σd)
    ∧ maps.SymDiff a b σ = Some (y, σy) ∧ maps.Len y σy = Some (ny, σy)
    ∧ nu + ni = na + nb
    ∧ nd = na - ni
    ∧ ny = nu - ni
    ∧ 0 ≤ ni ≤ na ∧ na ≤ nu.
Proof.
  intros Ha Hb.
  destruct (Union_step σ a b Ha Hb) as (u & σu & Hu & _ & Du & _).
  destruct (Intersect_step σ a b Ha Hb) as (i & σi & Hi & _ & Di & _).
  destruct (SetDiff_step σ a b Ha Hb) as (d & σd & Hd & _ & Dd & _).
  destruct (SymDiff_step σ a b Ha Hb) as (y & σy & Hy & _ & Dy & _).
  pose proof (sizes_of_two (dom (get σ a)) (dom (get σ b))) as (E1 & E2 & E3 & E4).
  exists (Z.of_nat (size (dom (get σ a)))), (Z.of_nat (size (dom (get σ b)))),
    u, σu, (Z.of_nat (size (dom (get σ a) ∪ dom (get σ b)))),
    i, σi, (Z.of_nat (size (dom (get σ a) ∩ dom (get σ b)))),
    d, σd, (Z.of_nat (size (dom (get σ a) ∖ dom (get σ b)))),
    y, σy, (Z.of_nat (size (dom (get σ a) ∖ dom (get σ b)
                            ∪ dom (get σ b) ∖ dom (get σ a)))).
  split_and!; try done; try (by apply Len_of_dom); lia.
Qed.
End algebra_laws.

(** ** Calls of the algebra, one after the other *)

Section algebra_composed.
Context `{Countable T} `{!RangeOrder T}.
Implicit Types (σ : mem T) (s other a b c : SetRef) (l : loc) (m : gmap T ()) (v : T).
Implicit Types (op : SetRef → SetRef → M (mem T) SetRef).
Implicit Types (F : gset T → gset T → gset T).

Lemma computes_Union : computes maps.Union (∪).
Proof. intros σ a b. apply Union_step. Qed.

Lemma computes_Intersect : computes maps.Intersect (∩).
Proof. intros σ a b. apply Intersect_step. Qed.

Lemma computes_SetDiff : computes maps.SetDiff (∖).
Proof. intros σ a b. apply SetDiff_step. Qed.

Lemma computes_SymDiff : computes maps.SymDiff (λ A B, (A ∖ B) ∪ (B ∖ A)).
Proof. intros σ a b. apply SymDiff_step. Qed.



(** [op3(op1(a, b), op2(c, d))] *)
Lemma computes_both op1 op2 op3 F1 F2 F3 σ a b c d :
  computes op1 F1 → computes op2 F2 → computes op3 F3 →
  valid σ a → valid σ b → valid σ c → valid σ d →
  ∃ r σ',
    (x ← op1 a b; y ← op2 c d; op3 x y) σ = Some (r, σ')
    ∧ dom (get σ' r)
      = F3 (F1 (dom (get σ a)) (dom (get σ b)))
           (F2 (dom (get σ c)) (dom (get σ d))).
Proof.
  intros H1 H2 H3 Ha Hb Hc Hd.
  destruct (H1 σ a b Ha Hb) as (x & σ1 & Hx & Vx & Dx & K1).
  destruct (K1 c Hc) as [Vc Gc]. destruct (K1 d Hd) as [Vd Gd].
  destruct (H2 σ1 c d Vc Vd) as (y & σ2 & Hy & Vy & Dy & K2).
  destruct (K2 x Vx) as [Vx2 Gx2].
  destruct (H3 σ2 x y Vx2 Vy) as (r & σ3 & Hr & _ & Dr & _).
  exists r, σ3. split; [mrun Hx; by mrun Hy|].
  by rewrite Dr, Gx2, Dx, Dy, Gc, Gd.
Qed.

Lemma same_set_of_dom (x1 x2 : option (SetRef * mem T)) r1 σ1 r2 σ2 :
  x1 = Some (r1, σ1) → x2 = Some (r2, σ2) →
  dom (get σ1 r1) = dom (get σ2 r2) → same_set x1 x2.
Proof. intros -> -> Hd. exists r1, σ1, r2, σ2. auto using same_members_of_dom. Qed.

(** X15.  [SymDiff(A,B)] has the elements of [Union(SetDiff(A,B), SetDiff(B,A))]
    and of [SetDiff(Union(A,B), Intersect(A,B))], computed by calling the
    methods one after the other. *)
Theorem SymDiff_decomposed σ a b :
  valid σ a → valid σ b →
  same_set (maps.SymDiff a b σ)
    ((d ← maps.SetDiff a b; e ← maps.SetDiff b a; maps.Union d e) σ)
  ∧ same_set (maps.SymDiff a b σ)
      ((u ← maps.Union a b; i ← maps.Intersect a b; maps.SetDiff u i) σ).
Proof.
  intros Ha Hb.
  destruct (SymDiff_step σ a b Ha Hb) as (y & σy & Hy & _ & Dy & _).
  destruct (computes_both maps.SetDiff maps.SetDiff maps.Union _ _ _ σ a b b a
              computes_SetDiff computes_SetDiff computes_Union Ha Hb Hb Ha)
    as (r1 & σ1 & H1 & D1).
  destruct (computes_both maps.Union maps.Intersect maps.SetDiff _ _ _ σ a b a b
              computes_Union computes_Intersect computes_SetDiff Ha Hb Ha Hb)
    as (r2 & σ2 & H2 & D2).
  split; (eapply same_set_of_dom; [exact Hy | eassumption |]).
  - by rewrite Dy, D1.
  - rewrite Dy, D2. set_solver.
Qed.

End algebra_composed.

(** ** Calls on different values *)

Section commuting.
Context `{Countable T} `{!RangeOrder T}.
Implicit Types (σ : mem T) (s : SetRef) (l : loc) (m : gmap T ()) (v w : T).

(** X17.  Calls of [Add] and [Remove] on two different values of a set can be
    made in either order: each call returns the same and the store is the
    same at the end. *)
Theorem calls_on_different_values_commute σ l v w :
  is_Some (heap σ !! l) → v ≠ w →
  (∃ x y σ',
     (x ← maps.Add (Some l) v; y ← maps.Add (Some l) w; mret (x, y)) σ
     = Some ((x, y), σ')
     ∧ (y ← maps.Add (Some l) w; x ← maps.Add (Some l) v; mret (x, y)) σ
       = Some ((x, y), σ'))
  ∧ (∃ x y σ',
       (x ← maps.Add (Some l) v; y ← maps.Remove (Some l) w; mret (x, y)) σ
       = Some ((x, y), σ')
       ∧ (y ← maps.Remove (Some l) w; x ← maps.Add (Some l) v; mret (x, y)) σ
         = Some ((x, y), σ'))
  ∧ (∃ x y σ',
       (x ← maps.Remove (Some l) v; y ← maps.Remove (Some l) w; mret (x, y)) σ
       = Some ((x, y), σ')
       ∧ (y ← maps.Remove (Some l) w; x ← maps.Remove (Some l) v; mret (x, y)) σ
         = Some ((x, y), σ')).
Proof.
  intros [m Hm] Hne. rewrite <- (put_id σ l m Hm). split_and!.
  - eexists _, _, _. split.
    + mrun Add_put. mrun Add_put. reflexivity.
    + mrun Add_put. mrun Add_put. unfold mret, M_ret.
      rewrite (insert_insert_ne m v w) by done. do 3 f_equal.
      * apply bool_decide_ext. rewrite dom_insert_L. set_solver.
      * apply bool_decide_ext. rewrite dom_insert_L. set_solver.
  - eexists _, _, _. split.
    + mrun Add_put. mrun Remove_put. reflexivity.
    + mrun Remove_put. mrun Add_put. unfold mret, M_ret.
      rewrite (delete_insert_ne m w v) by done. do 3 f_equal.
      * apply bool_decide_ext. rewrite dom_delete_L. set_solver.
      * apply bool_decide_ext. rewrite dom_insert_L. set_solver.
  - eexists _, _, _. split.
    + mrun Remove_put. mrun Remove_put. reflexivity.
    + mrun Remove_put. mrun Remove_put. unfold mret, M_ret.
      rewrite (delete_delete m w v). do 3 f_equal.
      * apply bool_decide_ext. rewrite dom_delete_L. set_solver.
      * apply bool_decide_ext. rewrite dom_delete_L. set_solver.
Qed.
End commuting.

(** ** [Slice] and [Range] *)

Section traversals.
Context `{Countable T} `{!RangeOrder T}.
Implicit Types (σ : mem T) (s : SetRef) (l : loc) (m : gmap T ()) (v w : T).


(** The loop of [Range] with a visitor that answers [p v] and does nothing
    else: it goes through the values in order up to the first one for
    which [p] is false, that one included. *)
Lemma logging_prefix (p : T → bool) (vs : list T) (log : list T) σ :
  ∃ taken rest,
    for_range_break vs (logging (λ v (a : ()), mret (p v, a))) ((), log) σ
    = Some (((), log ++ taken), σ)
    ∧ vs = taken ++ rest
    ∧ ((Forall (λ v, p v = true) taken ∧ rest = [])
       ∨ ∃ pre x, taken = pre ++ [x] ∧ Forall (λ v, p v = true) pre ∧ p x = false).
Proof.
  revert log. induction vs as [|v vs IH]; intros log.
  - exists [], []. rewrite app_nil_r. split_and!; [done..|]. left. by split.
  - cbn [for_range_break].
    assert (Hb : logging (λ v (a : ()), mret (p v, a)) v ((), log) σ
                 = Some ((p v, ((), log ++ [v])), σ)) by reflexivity.
    mrun Hb. cbv beta iota.
    destruct (p v) eqn:Hp.
    + destruct (IH (log ++ [v])) as (taken & rest & Hrun & -> & Hcase).
      exists (v :: taken), rest. rewrite Hrun, <- app_assoc.
      split_and!; [done..|].
      destruct Hcase as [[Hall ->]|(pre & x & -> & Hall & Hx)].
      * left. split; [by constructor | done].
      * right. exists (v :: pre), x. split_and!; [done | by constructor | done].
    + exists [v], vs. split_and!; [done..|].
      right. exists [], v. by split_and!.
Qed.

(** X19.  [Range] with a visitor that answers [p v] visits a prefix of the
    elements in the order of the loop: all of them when [p] is true for
    all, and otherwise those up to the first one for which [p] is false,
    that one included and nothing after it. *)
Theorem Range_stops_at_first_false (p : T → bool) σ s :
  ∃ taken rest σ',
    maps.Range s (logging (λ v (a : ()), mret (p v, a))) ((), []) σ
    = Some (((), taken), σ')
    ∧ range_order (tick σ) (get σ s) = taken ++ rest
    ∧ (∀ v, v ∈ taken → maps.Has s v σ = Some (true, σ))
    ∧ ((Forall (λ v, p v = true) taken ∧ rest = [])
       ∨ ∃ pre x, taken = pre ++ [x] ∧ Forall (λ v, p v = true) pre ∧ p x = false).
Proof.
  destruct (logging_prefix p (range_order (tick σ) (get σ s)) [] (tock σ))
    as (taken & rest & Hrun & Hvs & Hcase).
  exists taken, rest, (tock σ). split_and!; [by rewrite Range_run | done | | done].
  intros v Hv. rewrite Has_run, bool_decide_eq_true_2; [done|].
  apply (elem_of_range_order (tick σ)). rewrite Hvs, elem_of_app. by left.
Qed.
End traversals.

(** ** [CartesianProduct] with the operands exchanged, or an empty one *)

Section product_swap.
Context `{Countable TA} `{Countable TB}.
Context `{!RangeOrder TA} `{!RangeOrder TB}.

(** X20.  [CartesianProduct(B,A)] holds the pair [(vb,va)] exactly when
    [CartesianProduct(A,B)] holds [(va,vb)], and the two results have the
    same length; the result is empty when one of the operands is. *)
Theorem CartesianProduct_swapped (a b : SetRef)
    (σ : typ.mem3 TA TB) (τ : typ.mem3 TB TA) :
  get (typ.memB τ) a = get (typ.memA σ) a →
  get (typ.memA τ) b = get (typ.memB σ) b →
  ∃ r σ' q τ' n,
    typ.CartesianProduct a b σ = Some (r, σ')
    ∧ typ.CartesianProduct b a τ = Some (q, τ')
    ∧ (∀ va vb,
         fst <$> typ.Has r (typ.mkSetProduct va vb) (typ.memP σ')
         = fst <$> typ.Has q (typ.mkSetProduct vb va) (typ.memP τ'))
    ∧ len r (typ.memP σ') = Some (n, typ.memP σ')
    ∧ len q (typ.memP τ') = Some (n, typ.memP τ')
    ∧ (get (typ.memA σ) a = ∅ ∨ get (typ.memB σ) b = ∅ → n = 0).
Proof.
  intros Ea Eb.
  destruct (CartesianProduct_run a b σ) as (R & Hr & Dr & Sr).
  destruct (CartesianProduct_run b a τ) as (Q & Hq & Dq & Sq).
  eexists _, _, _, _, _. split_and!; [exact Hr | exact Hq | | done | |].
  - intros va vb. rewrite !typ_Has_eq, !Has_run. cbn [typ.memP fst fmap option_fmap option_map].
    rewrite !get_put_eq. do 2 f_equal. apply bool_decide_ext.
    rewrite Dr, Dq, Ea, Eb. cbn. tauto.
  - unfold len. cbn [typ.memP]. rewrite !get_put_eq, Sr, Sq, Ea, Eb.
    do 3 f_equal. lia.
  - cbn [typ.memP]. rewrite get_put_eq, Sr.
    intros [-> | ->]; rewrite map_size_empty; lia.
Qed.
End product_swap.

(** ** More of the code run on examples *)

Section more_examples.
Local Existing Instance keys_order.
Local Existing Instance entries_order.

Example String_words :
  fst <$> maps.String id (Some 1%positive) store_words = Some "{go set typ}".
Proof. by vm_compute. Qed.

Example String_nil : fst <$> maps.String id nil store_words = Some "{}".
Proof. by vm_compute. Qed.

Example NewSetFromKeys_run :
  fst <$> (a ← maps.NewSetFromKeys ({[1 := "x"; 2 := "y"; 3 := "x"]} : gmap Z string);
           maps.Slice a) store_0
  = Some [3; 2; 1].
Proof. by vm_compute. Qed.

Example NewSetFromValues_run :
  fst <$> (a ← maps.NewSetFromValues ({[1 := "x"; 2 := "y"; 3 := "x"]} : gmap Z string);
           maps.Slice a) (Mem ∅ 0 : mem string)
  = Some ["y"; "x"].
Proof. by vm_compute. Qed.

Example RemoveSet_of_itself :
  fst <$> (n ← maps.RemoveSet (Some 1%positive) (Some 1%positive);
           k ← maps.Len (Some 1%positive);
           mret (n, k)) store_ab
  = Some (3, 0).
Proof. by vm_compute. Qed.

Example AddSet_run :
  fst <$> (n ← maps.AddSet (Some 1%positive) (Some 2%positive);
           vs ← maps.Slice (Some 1%positive);
           mret (n, vs)) store_ab
  = Some (2, [5; 3; 4; 2; 1]).
Proof. by vm_compute. Qed.
End more_examples.

(** ** The properties at the stores [store_5] and [store_ab] *)

Section more_witnesses.
Local Existing Instance keys_order.

Lemma made_store_ab : is_Some (heap store_ab !! 1%positive).
Proof. vm_compute. eauto. Defined.






Lemma algebra_pointwise_witness :
  valid store_ab (Some 1%positive) ∧ valid store_ab (Some 2%positive)
  ∧ ∃ u σu i σi y σy,
      maps.Union (Some 1%positive) (Some 2%positive) store_ab = Some (u, σu)
      ∧ maps.Intersect (Some 1%positive) (Some 2%positive) store_ab = Some (i, σi)
      ∧ maps.SymDiff (Some 1%positive) (Some 2%positive) store_ab = Some (y, σy).
Proof.
  destruct valid_store_ab as [Ha Hb]. split; [exact Ha|]. split; [exact Hb|].
  destruct (algebra_pointwise store_ab _ _ Ha Hb)
    as (u & σu & i & σi & y & σy & H1 & H2 & H3 & _).
  exact (ex_intro _ u (ex_intro _ σu (ex_intro _ i (ex_intro _ σi
          (ex_intro _ y (ex_intro _ σy (conj H1 (conj H2 H3)))))))).
Defined.

Lemma algebra_empty_operand_witness :
  valid store_ab (Some 1%positive) ∧ valid store_ab nil
  ∧ maps.Len nil store_ab = Some (0, store_ab)
  ∧ (∃ r σ', maps.Union (Some 1%positive) nil store_ab = Some (r, σ')
             ∧ same_members σ' r store_ab (Some 1%positive))
  ∧ (∃ r σ', maps.Intersect (Some 1%positive) nil store_ab = Some (r, σ')
             ∧ maps.Len r σ' = Some (0, σ')).
Proof.
  destruct valid_store_ab as [Ha _].
  split; [exact Ha|]. split; [exact I|]. split; [reflexivity|].
  destruct (algebra_empty_operand store_ab (Some 1%positive) nil Ha I eq_refl)
    as (H1 & _ & _ & _ & H5 & _).
  exact (conj H1 H5).
Defined.


Lemma algebra_lengths_witness :
  valid store_ab (Some 1%positive) ∧ valid store_ab (Some 2%positive)
  ∧ ∃ na nb u σu nu i σi ni,
      maps.Len (Some 1%positive) store_ab = Some (na, store_ab)
      ∧ maps.Len (Some 2%positive) store_ab = Some (nb, store_ab)
      ∧ maps.Union (Some 1%positive) (Some 2%positive) store_ab = Some (u, σu)
      ∧ maps.Len u σu = Some (nu, σu)
      ∧ maps.Intersect (Some 1%positive) (Some 2%positive) store_ab = Some (i, σi)
      ∧ maps.Len i σi = Some (ni, σi)
      ∧ nu + ni = na + nb.
Proof.
  destruct valid_store_ab as [Ha Hb]. split; [exact Ha|]. split; [exact Hb|].
  destruct (algebra_lengths store_ab _ _ Ha Hb)
    as (na & nb & u & σu & nu & i & σi & ni & d & σd & nd & y & σy & ny
        & H1 & H2 & H3 & H4 & H5 & H6 & _ & _ & _ & _ & H7 & _).
  exact (ex_intro _ na (ex_intro _ nb (ex_intro _ u (ex_intro _ σu
          (ex_intro _ nu (ex_intro _ i (ex_intro _ σi (ex_intro _ ni
            (conj H1 (conj H2 (conj H3 (conj H4 (conj H5 (conj H6 H7)))))))))))))).
Defined.

Lemma SymDiff_decomposed_witness :
  valid store_ab (Some 1%positive) ∧ valid store_ab (Some 2%positive)
  ∧ same_set (maps.SymDiff (Some 1%positive) (Some 2%positive) store_ab)
      ((d ← maps.SetDiff (Some 1%positive) (Some 2%positive);
        e ← maps.SetDiff (Some 2%positive) (Some 1%positive);
        maps.Union d e) store_ab).
Proof.
  destruct valid_store_ab as [Ha Hb]. split; [exact Ha|]. split; [exact Hb|].
  exact (proj1 (SymDiff_decomposed store_ab _ _ Ha Hb)).
Defined.


Lemma calls_on_different_values_commute_witness :
  is_Some (heap store_ab !! 1%positive) ∧ (2 : Z) ≠ 9
  ∧ ∃ x y σ',
      (x ← maps.Add (Some 1%positive) 2; y ← maps.Add (Some 1%positive) 9;
       mret (x, y)) store_ab = Some ((x, y), σ')
      ∧ (y ← maps.Add (Some 1%positive) 9; x ← maps.Add (Some 1%positive) 2;
         mret (x, y)) store_ab = Some ((x, y), σ').
Proof.
  assert (Hne : (2 : Z) ≠ 9) by (intros [=]).
  split; [exact made_store_ab|]. split; [exact Hne|].
  exact (proj1 (calls_on_different_values_commute store_ab 1%positive 2 9
                  made_store_ab Hne)).
Defined.

Lemma CartesianProduct_swapped_witness :
  get (typ.memB store_product) (Some 1%positive)
  = get (typ.memA store_product) (Some 1%positive)
  ∧ get (typ.memA store_product) (Some 2%positive)
    = get (typ.memB store_product) (Some 2%positive)
  ∧ ∃ r σ' q τ',
      typ.CartesianProduct (Some 1%positive) (Some 2%positive) store_product
      = Some (r, σ')
      ∧ typ.CartesianProduct (Some 2%positive) (Some 1%positive) store_product
        = Some (q, τ').
Proof.
  split; [reflexivity|]. split; [reflexivity|].
  destruct (CartesianProduct_swapped (Some 1%positive) (Some 2%positive)
              store_product store_product eq_refl eq_refl)
    as (r & σ' & q & τ' & n & H1 & H2 & _).
  exact (ex_intro _ r (ex_intro _ σ' (ex_intro _ q (ex_intro _ τ' (conj H1 H2))))).
Defined.
End more_witnesses.
